(** * tesla-mqtt-app: the message relay of [server.js]

    A shallow embedding of the three parts of [server.js] that carry
    invariants, and the properties established about them:

    - [Codec]: the CSV line written by [app.post('/save')] and the
      tokenizer [parseCSVLine] that reads it back;
    - [LogStore]: the directory of per-user log files, the scan
      [getMessagesForTopic], the endpoint [app.get('/messages/:topic')]
      and the append of [app.post('/save')];
    - [Registry]: the [userCounts] object and the [joinTopic] and
      [disconnect] handlers of [io.on('connection')].

    JavaScript strings are sequences of UTF-16 code units; they are
    modelled as [list N], one number per code unit.  Counts and limits are
    JavaScript numbers that only ever hold integers here; they are
    modelled as [Z]. *)

From Stdlib Require Import ZArith NArith List Bool Lia Permutation Sorted.
From Stdlib Require Ascii String.
From stdpp Require Import base option list strings gmap.

Abbreviation jsstring := (list N).

(** ASCII literals for the examples: one code unit per character. *)
Definition lit (s : String.string) : jsstring :=
  map Ascii.N_of_ascii (String.list_ascii_of_string s).

(** Truthiness of a string: only the empty string is falsy. *)
Definition truthy_str (s : jsstring) : bool :=
  match s with [] => false | _ :: _ => true end.

(** [a || b] on strings. *)
Definition or_str (a b : jsstring) : jsstring :=
  if truthy_str a then a else b.

(** A property of a request body or of the query string that may be
    absent ([undefined]). *)
Definition or_undefined (o : option jsstring) : jsstring :=
  match o with Some s => s | None => [] end.

(** [`${x}`] for a string or [undefined]. *)
Definition template (o : option jsstring) : jsstring :=
  match o with Some s => s | None => lit "undefined" end.

Module Codec.

Definition DQ : N := 34.     (* the double quote, U+0022 *)
Definition COMMA : N := 44.  (* the comma, U+002C *)
Definition NL : N := 10.     (* the line feed, U+000A *)

(** The code units [String.prototype.trim] strips: WhiteSpace and
    LineTerminator of ECMAScript. *)
Definition is_white_space (c : N) : bool :=
  (N.leb 9 c && N.leb c 13) || N.eqb c 32 || N.eqb c 160 || N.eqb c 5760
  || (N.leb 8192 c && N.leb c 8202) || N.eqb c 8232 || N.eqb c 8233
  || N.eqb c 8239 || N.eqb c 8287 || N.eqb c 12288 || N.eqb c 65279.

Fixpoint trim_start (s : jsstring) : jsstring :=
  match s with
  | c :: s' => if is_white_space c then trim_start s' else s
  | [] => []
  end.

Definition trim (s : jsstring) : jsstring :=
  rev (trim_start (rev (trim_start s))).

(** [s.replace] of every double quote by two of them. *)
Definition double_quotes (s : jsstring) : jsstring :=
  flat_map (fun c => if N.eqb c DQ then [DQ; DQ] else [c]) s.

(** The body of the [while] loop of [parseCSVLine].  The index [i] is
    kept as the suffix [line.slice(i)] still to be read, so [char] is its
    head and [nextChar] the head of its tail ([undefined] when there is
    none, which is not a quote). *)
Fixpoint parse_loop (line : jsstring) (result : list jsstring)
    (current : jsstring) (inQuotes : bool) : list jsstring :=
  match line with
  | [] =>
      if truthy_str current then result ++ [trim current] else result
  | char :: rest =>
      let one_char :=
        if N.eqb char DQ then
          parse_loop rest result current (negb inQuotes)
        else if N.eqb char COMMA && negb inQuotes then
          parse_loop rest (result ++ [trim current]) [] inQuotes
        else
          parse_loop rest result (current ++ [char]) inQuotes in
      match rest with
      | nextChar :: rest' =>
          if N.eqb char DQ && inQuotes && N.eqb nextChar DQ then
            parse_loop rest' result (current ++ [DQ]) inQuotes
          else one_char
      | [] => one_char
      end
  end.

Definition parseCSVLine (line : jsstring) : list jsstring :=
  parse_loop line [] [] false.

(** Whether the tokenizer is inside quotes when it reaches the end of the
    line: the line has an unterminated quote. *)
Fixpoint ends_in_quotes (line : jsstring) (inQuotes : bool) : bool :=
  match line with
  | [] => inQuotes
  | char :: rest =>
      match rest with
      | nextChar :: rest' =>
          if N.eqb char DQ && inQuotes && N.eqb nextChar DQ then
            ends_in_quotes rest' inQuotes
          else if N.eqb char DQ then ends_in_quotes rest (negb inQuotes)
          else ends_in_quotes rest inQuotes
      | [] => if N.eqb char DQ then negb inQuotes else inQuotes
      end
  end.

Definition unterminated_quote (line : jsstring) : bool :=
  ends_in_quotes line false.

(** The body of [app.post('/save')], lines 168-182. *)
Record save_body := {
  timestamp : option jsstring;
  topic : option jsstring;
  payload : option jsstring;
  username : option jsstring;
  sender : option jsstring
}.

Definition safePayload (b : save_body) : jsstring :=
  double_quotes (or_undefined (payload b)).
Definition safeTopic (b : save_body) : jsstring :=
  double_quotes (or_undefined (topic b)).
Definition safeSender (b : save_body) : jsstring :=
  double_quotes
    (or_str (or_undefined (sender b)) (or_undefined (username b))).

Definition quoted (s : jsstring) : jsstring := DQ :: s ++ [DQ].

(** The line of [/save] without its final line break.  When no field
    holds a line break and the text is written to the file as it is,
    this is the line that [content.split] hands back to the scan. *)
Definition record_text (b : save_body) : jsstring :=
  template (timestamp b) ++ COMMA :: quoted (safeTopic b)
    ++ COMMA :: quoted (safeSender b) ++ COMMA :: quoted (safePayload b).

(** [line] of [/save], as appended to the file. *)
Definition save_line (b : save_body) : jsstring :=
  record_text b ++ [NL].

(** Text the tokenizer reads as one unquoted field: no quote, no comma. *)
Definition plain (s : jsstring) : Prop :=
  Forall (fun c => c <> DQ /\ c <> COMMA) s.

(** The sender that [/save] writes: [sender || username || ''] *)
Definition written_sender (b : save_body) : jsstring :=
  or_str (or_undefined (sender b)) (or_undefined (username b)).

(** The round trip as the specification words it: the line of a record
    decodes to a timestamp followed by the topic, the sender and the body
    of the record, unchanged. *)
Definition decodes_back (line : jsstring) (b : save_body) : Prop :=
  exists ts, parseCSVLine line =
    [ts; or_undefined (topic b); written_sender b; or_undefined (payload b)].

(** The body of the quote-doubling example, with its two quotes around
    hi, and the field it is rendered as: wrapped in quotes, each inner
    quote doubled. *)
Definition he_said_hi : jsstring :=
  lit "He said " ++ [DQ] ++ lit "hi" ++ [DQ].
Definition he_said_hi_field : jsstring :=
  [DQ] ++ lit "He said " ++ [DQ; DQ] ++ lit "hi" ++ [DQ; DQ] ++ [DQ].

(** Sample request bodies. *)
Definition sunny : save_body :=
  {| timestamp := Some (lit "2024-01-01T00:00:00Z");
     topic := Some (lit "weather");
     payload :=
       Some (lit "sunny, with " ++ [DQ] ++ lit "some" ++ [DQ] ++ lit " rain");
     username := Some (lit "alice");
     sender := None |}.

Definition indented : save_body :=
  {| timestamp := Some (lit "2024-01-01T00:00:00Z");
     topic := Some (lit "weather");
     payload := Some (lit " sunny");
     username := Some (lit "alice");
     sender := Some (lit "alice") |}.

Definition quoting : save_body :=
  {| timestamp := Some (lit "2024-01-01T00:00:00Z");
     topic := Some (lit "weather");
     payload := Some he_said_hi;
     username := Some (lit "alice");
     sender := Some (lit "alice") |}.


End Codec.

Module LogStore.
Import Codec.

(** ** The storage root [saveDir]

    What [readdirSync(saveDir)] lists, in the order it lists it, with what
    is behind each name: a regular file with its text, or something
    [readFileSync] and [appendFileSync] throw on (a directory).  The
    storage is [None] when [saveDir] itself cannot be listed.  The text of
    a file is kept as the string [readFileSync(path, 'utf8')] returns. *)
Inductive entry :=
| File (content : jsstring)
| Directory.

Abbreviation listing := (list (jsstring * entry)).
Definition storage := option listing.

(** Completion of a statement that may throw. *)
Inductive completion (A : Type) :=
| Normal (a : A)
| Throw.
Arguments Normal {A} a.
Arguments Throw {A}.

(** [s.endsWith(suffix)] *)
Definition endsWith (s suffix : jsstring) : bool :=
  bool_decide (drop (length s - length suffix) s = suffix).

(** [content.split] at every line feed. *)
Fixpoint split_lines (content : jsstring) : list jsstring :=
  match content with
  | [] => [[]]
  | c :: rest =>
      if N.eqb c NL then [] :: split_lines rest
      else match split_lines rest with
           | l :: ls => (c :: l) :: ls
           | [] => [[c]]
           end
  end.

(** [a.slice(start)] for an integer [start]. *)
Definition slice {A} (a : list A) (start : Z) : list A :=
  let len := Z.of_nat (length a) in
  let k := if (start <? 0)%Z then Z.max (len + start) 0 else Z.min start len in
  drop (Z.to_nat k) a.

(** The object pushed at lines 113-120. *)
Record message := {
  timestamp : jsstring;
  topic : jsstring;
  username : jsstring;
  message_text : jsstring;   (* the property [message] *)
  sender : jsstring
}.

(** What the handlers write to the console. *)
Inductive console :=
| log_request (topic : jsstring) (limit : Z)
| log_loading (topic : jsstring) (files : nat)
| warn_parsing (line : jsstring)
| log_returning (count : nat) (topic : jsstring)
| error_reading.

(** The call of [parseCSVLine] inside the inner [try]: the tokenizer has
    no [throw] and calls nothing that throws on a string. *)
Definition try_parseCSVLine (line : jsstring) : completion (list jsstring) :=
  Normal (parseCSVLine line).



(** One turn of [for (const line of lines)], lines 108-125. *)
Definition scan_line (topic_wanted line : jsstring)
    : list message * list console :=
  if truthy_str (trim line) then
    match try_parseCSVLine line with
    | Normal fields =>
        match fields with
        | f0 :: f1 :: f2 :: f3 :: _ =>
            if bool_decide (f1 = topic_wanted) then
              ([ {| timestamp := f0; topic := f1; username := f2;
                    message_text := f3; sender := f2 |} ], [])
            else ([], [])
        | _ => ([], [])
        end
    | Throw => ([], [warn_parsing line])
    end
  else ([], []).

Fixpoint scan_lines (topic_wanted : jsstring) (lines : list jsstring)
    : list message * list console :=
  match lines with
  | [] => ([], [])
  | line :: rest =>
      let '(ms, out) := scan_line topic_wanted line in
      let '(ms', out') := scan_lines topic_wanted rest in
      (ms ++ ms', out ++ out')
  end.

(** [for (const file of files)], lines 102-127: [readFileSync] throws on
    an entry that is not a readable file, and the exception leaves the
    loop; what was written to the console stays written. *)
Fixpoint scan_files (topic_wanted : jsstring) (files : listing)
    (messages : list message) (out : list console)
    : completion (list message) * list console :=
  match files with
  | [] => (Normal messages, out)
  | (_, Directory) :: _ => (Throw, out)
  | (_, File content) :: rest =>
      let lines := drop 1 (split_lines content) in
      let '(ms, out') := scan_lines topic_wanted lines in
      scan_files topic_wanted rest (messages ++ ms) (out ++ out')
  end.

Definition csv_files (entries : listing) : listing :=
  filter (fun e => endsWith (fst e) (lit ".csv") = true) entries.

Section Dates.

(** [Date s] is the time value of [new Date(s)] in milliseconds, [None]
    when the date is invalid (its time value is NaN).  Which strings are
    dates is left to the JavaScript engine. *)
Variable Date : jsstring -> option Z.

(** [new Date(a.timestamp) - new Date(b.timestamp)]; [None] is NaN. *)
Definition compare_timestamps (a b : message) : option Z :=
  match Date (timestamp a), Date (timestamp b) with
  | Some x, Some y => Some (x - y)%Z
  | _, _ => None
  end.

(** [Array.prototype.sort]: the sort is stable and reads a NaN from the
    comparator as +0.  An element goes before the first element of the
    sorted rest that it does not compare greater than.  When the
    comparator is consistent on the elements, as ECMAScript words it,
    this is the one order every engine returns; when it is not (a NaN
    next to two distinct dates), the order is left to the engine, and the
    theorems below do not speak of that case. *)
Definition not_after {A} (comparefn : A -> A -> option Z) (x y : A) : bool :=
  match comparefn x y with
  | Some v => (v <=? 0)%Z
  | None => true
  end.

Fixpoint sort_insert {A} (comparefn : A -> A -> option Z) (x : A)
    (sorted : list A) : list A :=
  match sorted with
  | [] => [x]
  | y :: rest =>
      if not_after comparefn x y then x :: y :: rest
      else y :: sort_insert comparefn x rest
  end.

Fixpoint sort {A} (comparefn : A -> A -> option Z) (a : list A) : list A :=
  match a with
  | [] => []
  | x :: rest => sort_insert comparefn x (sort comparefn rest)
  end.

(** [getMessagesForTopic(topic, limit)], with the console output. *)
Definition getMessagesForTopic_io (st : storage) (topic_wanted : jsstring)
    (limit : Z) : list message * list console :=
  match st with
  | None => ([], [error_reading])
  | Some entries =>
      let files := csv_files entries in
      match scan_files topic_wanted files []
              [log_loading topic_wanted (length files)] with
      | (Throw, out) => ([], out ++ [error_reading])
      | (Normal messages, out) =>
          let sortedMessages :=
            slice (sort compare_timestamps messages) (- limit) in
          (sortedMessages,
           out ++ [log_returning (length sortedMessages) topic_wanted])
      end
  end.

Definition getMessagesForTopic (st : storage) (topic_wanted : jsstring)
    (limit : Z) : list message :=
  fst (getMessagesForTopic_io st topic_wanted limit).

(** ** [app.get('/messages/:topic')] *)

(** The digit a code unit stands for in [parseInt]: 0-9, a-z, A-Z. *)
Definition digit_of (c : N) : option Z :=
  if N.leb 48 c && N.leb c 57 then Some (Z.of_N c - 48)%Z
  else if N.leb 97 c && N.leb c 122 then Some (Z.of_N c - 87)%Z
  else if N.leb 65 c && N.leb c 90 then Some (Z.of_N c - 55)%Z
  else None.

(** The longest prefix of digits of the radix, read as a number; [acc]
    is [None] until a digit has been read. *)
Fixpoint parse_digits (radix : Z) (s : jsstring) (acc : option Z) : option Z :=
  match s with
  | [] => acc
  | c :: rest =>
      match digit_of c with
      | Some d =>
          if (d <? radix)%Z then
            parse_digits radix rest
              (Some (radix * default 0%Z acc + d)%Z)
          else acc
      | None => acc
      end
  end.

(** Whether [s] starts with the code unit [c]. *)
Definition starts_with (c : N) (s : jsstring) : bool :=
  match s with
  | d :: _ => N.eqb d c
  | [] => false
  end.

(** [parseInt(s)] without a radix; [None] is NaN.  Leading white space is
    skipped, a sign is read, then a prefix 0x or 0X selects radix 16.
    The number read is kept as it is written; the code holds it as a
    double, which is the same number as long as it is not above 2^53,
    and what is stated of a value of [parseInt] below is stated within
    that range. *)
Definition parseInt (s : jsstring) : option Z :=
  let s1 := trim_start s in
  let sign := if starts_with 45 s1 then (-1)%Z else 1%Z in
  let s2 := if starts_with 45 s1 || starts_with 43 s1 then drop 1 s1 else s1 in
  let hex :=
    starts_with 48 s2
    && (starts_with 120 (drop 1 s2) || starts_with 88 (drop 1 s2)) in
  let radix := if hex then 16%Z else 10%Z in
  let s3 := if hex then drop 2 s2 else s2 in
  match parse_digits radix s3 None with
  | Some n => Some (sign * n)%Z
  | None => None
  end.

(** [parseInt(req.query.limit) || 10]: an absent parameter is
    [undefined], which [parseInt] reads as the text undefined. *)
Definition limit_of_query (limit_param : option jsstring) : Z :=
  match parseInt (template limit_param) with
  | Some n => if (n =? 0)%Z then 10%Z else n
  | None => 10%Z
  end.

Inductive response :=
| json_messages (messages : list message) (topic : jsstring) (count : nat)
    (* status 200, success: true *)
| json_saved     (* status 200, success: true *)
| json_error.    (* status 500, success: false *)

(** The handler has a [catch] that answers with status 500; nothing in
    its [try] throws, [getMessagesForTopic] catching what it meets. *)
Definition get_messages_io (st : storage) (topic_param : jsstring)
    (limit_param : option jsstring) : response * list console :=
  let limit := limit_of_query limit_param in
  let '(messages, out) := getMessagesForTopic_io st topic_param limit in
  (json_messages messages topic_param (length messages),
   log_request topic_param limit :: out).

Definition get_messages (st : storage) (topic_param : jsstring)
    (limit_param : option jsstring) : response :=
  fst (get_messages_io st topic_param limit_param).

End Dates.

(** ** [app.post('/save')] *)

Definition header : jsstring := lit "Timestamp,Topic,Sender,Message" ++ [NL].

Definition fileName (b : save_body) : jsstring :=
  template (Codec.username b) ++ lit "_messages.csv".

(** A name that [path.join(saveDir, name)] resolves to an entry of
    [saveDir] itself: no path separator and no NUL.  The storage model is
    flat, so [save] speaks for such names only; with a separator in the
    user name the code resolves the path to another place or fails
    where the model appends. *)
Definition plain_name (name : jsstring) : bool :=
  forallb (fun c => negb (N.eqb c 47 || N.eqb c 92 || N.eqb c 0)) name.

Fixpoint find_entry (name : jsstring) (entries : listing) : option entry :=
  match entries with
  | [] => None
  | (n, e) :: rest =>
      if bool_decide (n = name) then Some e else find_entry name rest
  end.

Fixpoint append_to (name line : jsstring) (entries : listing) : listing :=
  match entries with
  | [] => []
  | (n, e) :: rest =>
      if bool_decide (n = name) then
        match e with
        | File content => (n, File (content ++ line)) :: rest
        | Directory => (n, e) :: rest
        end
      else (n, e) :: append_to name line rest
  end.

(** Lines 173-195.  [existsSync] is false when the directory is gone, and
    [writeFileSync] then throws; [appendFileSync] throws on a directory.
    A new file is listed after the entries already there; where
    [readdirSync] lists it is left to the file system, and nothing
    below depends on the place.  The line is appended as its code
    units; the code writes it as UTF-8, which reads back as the same code
    units when the line has no surrogate without its partner. *)
Definition save (st : storage) (b : save_body) : storage * response :=
  let line := save_line b in
  match st with
  | None => (None, json_error)
  | Some entries =>
      match find_entry (fileName b) entries with
      | None =>
          (Some (entries ++ [(fileName b, File (header ++ line))]), json_saved)
      | Some (File _) =>
          (Some (append_to (fileName b) line entries), json_saved)
      | Some Directory => (Some entries, json_error)
      end
  end.

(** The records of a topic that the scan collects from the text of one
    file, and from the files of a directory, in the order of the scan. *)
Definition file_messages (topic_wanted content : jsstring) : list message :=
  fst (scan_lines topic_wanted (drop 1 (split_lines content))).

Fixpoint stored_messages (topic_wanted : jsstring) (files : listing)
    : completion (list message) :=
  match files with
  | [] => Normal []
  | (_, Directory) :: _ => Throw
  | (_, File content) :: rest =>
      match stored_messages topic_wanted rest with
      | Normal ms => Normal (file_messages topic_wanted content ++ ms)
      | Throw => Throw
      end
  end.

Definition is_warning (e : console) : bool :=
  match e with warn_parsing _ => true | _ => false end.

(** ** The orders and conditions the specification speaks of *)

(** Ascending by time with a timestamp that is no date taken as the
    earliest time of all. *)
Definition time_le (a b : option Z) : bool :=
  match a, b with
  | None, _ => true
  | Some _, None => false
  | Some x, Some y => (x <=? y)%Z
  end.

Fixpoint earliest_first (Date : jsstring -> option Z) (l : list message)
    : bool :=
  match l with
  | a :: (b :: _) as rest =>
      time_le (Date (timestamp a)) (Date (timestamp b))
      && earliest_first Date rest
  | _ => true
  end.

(** Both timestamps are dates and the first is not the later one. *)
Definition not_later (Date : jsstring -> option Z) (a b : message) : Prop :=
  exists x y, Date (timestamp a) = Some x /\ Date (timestamp b) = Some y
              /\ (x <= y)%Z.

(** The directory cannot be listed, or one of its log files cannot be
    read. *)
Definition storage_unavailable (st : storage) : Prop :=
  match st with
  | None => True
  | Some entries => exists name, (name, Directory) ∈ csv_files entries
  end.


(** A file text that ends where a line ends: it is empty or its last
    code unit is a line feed.  Every text that [save] leaves is. *)
Definition line_closed (content : jsstring) : Prop :=
  content = [] \/ exists c, content = c ++ [NL].

(** The log file of the name is absent, or is a file whose text ends
    where a line ends. *)
Definition appendable (name : jsstring) (entries : listing) : Prop :=
  match find_entry name entries with
  | Some (File content) => line_closed content
  | Some Directory => False
  | None => True
  end.

Definition no_line_break (s : jsstring) : Prop :=
  Forall (fun c => c <> NL) s.

(** The dates of the examples: the time values of three dates in the
    format of [toISOString]; the timestamp someday of [undated_store] is
    no date. *)
Definition sample_dates (s : jsstring) : option Z :=
  if bool_decide (s = lit "2024-01-01T00:00:00.000Z") then
    Some 1704067200000%Z
  else if bool_decide (s = lit "2024-01-02T00:00:00.000Z") then
    Some 1704153600000%Z
  else if bool_decide (s = lit "2024-01-03T00:00:00.000Z") then
    Some 1704240000000%Z
  else None.

Definition body_of (ts user text : string) : save_body :=
  {| Codec.timestamp := Some (lit ts);
     Codec.topic := Some (lit "weather");
     payload := Some (lit text);
     Codec.username := Some (lit user);
     Codec.sender := Some (lit user) |}.

Definition message_of (ts user text : string) : message :=
  {| timestamp := lit ts; topic := lit "weather"; username := lit user;
     message_text := lit text; sender := lit user |}.

(** Two saves into an empty directory, the second with a timestamp that
    is no date. *)
Definition undated_store : storage :=
  fst (save (fst (save (Some [])
    (body_of "2024-01-02T00:00:00.000Z" "alice" "sunny")))
    (body_of "someday" "alice" "rain")).

(** Three saves out of order across the files of two users. *)
Definition shuffled_store : storage :=
  fst (save (fst (save (fst (save (Some [])
    (body_of "2024-01-03T00:00:00.000Z" "alice" "three")))
    (body_of "2024-01-01T00:00:00.000Z" "bob" "one")))
    (body_of "2024-01-02T00:00:00.000Z" "alice" "two")).

(** A log file with a line of two fields between two records. *)
Definition damaged_store : storage :=
  Some [ (lit "alice_messages.csv",
          File
            (header
             ++ save_line (body_of "2024-01-01T00:00:00.000Z" "alice" "one")
             ++ lit "oops,what" ++ [NL]
             ++ save_line (body_of "2024-01-02T00:00:00.000Z" "alice" "two")))
       ].

(** A record with an empty body, and one whose timestamp, in the format
    of [toLocaleString], holds a comma. *)
Definition silent : save_body :=
  {| Codec.timestamp := Some (lit "2024-01-01T00:00:00.000Z");
     Codec.topic := Some (lit "weather");
     payload := Some [];
     Codec.username := Some (lit "alice");
     Codec.sender := Some (lit "alice") |}.

Definition silent_local : save_body :=
  {| Codec.timestamp := Some (lit "1/15/2024, 10:30:00 AM");
     Codec.topic := Some (lit "weather");
     payload := Some [];
     Codec.username := Some (lit "alice");
     Codec.sender := Some (lit "alice") |}.

(** A directory in which one log file is itself a directory. *)
Definition unreadable_store : storage :=
  Some [ (lit "alice_messages.csv",
          File
            (header
             ++ save_line (body_of "2024-01-01T00:00:00.000Z" "alice" "one")));
         (lit "bob_messages.csv", Directory) ].

End LogStore.

Module Registry.

(** ** The object [userCounts]

    A value read from [userCounts]: a property the handlers wrote, or a
    member inherited from [Object.prototype], or [undefined].  The
    handlers only write numbers, NaN, and the strings that adding 1 to an
    inherited member makes: the text of that member followed by digits 1,
    kept as the member's name and the number of digits. *)
Inductive jsval :=
| undefined
| num (n : Z)
| nan
| inherited (name : jsstring)
| text (name : jsstring) (ones : nat).

Definition prototype_names : list jsstring :=
  [ lit "constructor"; lit "__defineGetter__"; lit "__defineSetter__";
    lit "hasOwnProperty"; lit "__lookupGetter__"; lit "__lookupSetter__";
    lit "isPrototypeOf"; lit "propertyIsEnumerable"; lit "toString";
    lit "valueOf"; lit "__proto__"; lit "toLocaleString" ].

Definition proto : jsstring := lit "__proto__".

(** [userCounts[key]] *)
Definition get (counts : gmap jsstring jsval) (key : jsstring) : jsval :=
  if bool_decide (key = proto) then inherited key
  else match counts !! key with
       | Some v => v
       | None =>
           if bool_decide (key ∈ prototype_names) then inherited key
           else undefined
       end.

(** [userCounts[key] = v]: the setter of [__proto__] ignores a value that
    is not an object; any other key becomes an own property. *)
Definition set (counts : gmap jsstring jsval) (key : jsstring) (v : jsval)
    : gmap jsstring jsval :=
  if bool_decide (key = proto) then counts else <[key := v]> counts.

Definition truthy (v : jsval) : bool :=
  match v with
  | undefined => false
  | num n => negb (n =? 0)%Z
  | nan => false
  | inherited _ => true
  | text _ _ => true
  end.

(** [Math.max(0, v - 1)]: a function, an object or a text that is not a
    numeral converts to NaN, and so does [undefined]. *)
Definition decremented (v : jsval) : jsval :=
  match v with
  | num n => num (Z.max 0 (n - 1))
  | _ => nan
  end.

(** [(v || 0) + 1] *)
Definition incremented (v : jsval) : jsval :=
  if truthy v then
    match v with
    | num n => num (n + 1)
    | inherited name => text name 1
    | text name ones => text name (S ones)
    | _ => num 1
    end
  else num 1.

(** ** Connections

    The topic sent with [joinTopic] is taken to be a string.  [sockets]
    holds the variable [joinedTopic] of every connection whose
    handlers are registered: [None] is [null].  Socket ids are numbers
    here.  [io.to(topic).emit('userCountUpdate', v)] is recorded as the
    pair of the room and the value sent. *)
Record state := {
  userCounts : gmap jsstring jsval;
  sockets : gmap N (option jsstring)
}.

Definition emission := (jsstring * jsval)%type.

Definition initial : state := {| userCounts := ∅; sockets := ∅ |}.

(** [if (joinedTopic)] *)
Definition joined (joinedTopic : option jsstring) : bool :=
  match joinedTopic with
  | Some t => truthy_str t
  | None => false
  end.

(** Lines 19-25 and 34-38: the decrement guarded by the two tests. *)
Definition leave (joinedTopic : option jsstring)
    (counts : gmap jsstring jsval) : gmap jsstring jsval * list emission :=
  match joinedTopic with
  | Some t =>
      if joined joinedTopic && truthy (get counts t) then
        let counts' := set counts t (decremented (get counts t)) in
        (counts', [(t, get counts' t)])
      else (counts, [])
  | None => (counts, [])
  end.

(** [io.on('connection')]: a new socket, with [joinedTopic = null]. *)
Definition connection (id : N) (st : state) : state :=
  match sockets st !! id with
  | Some _ => st
  | None =>
      {| userCounts := userCounts st;
         sockets := <[id := None]> (sockets st) |}
  end.

(** [socket.on('joinTopic')] *)
Definition joinTopic (id : N) (t : jsstring) (st : state)
    : state * list emission :=
  match sockets st !! id with
  | None => (st, [])
  | Some joinedTopic =>
      let '(counts1, out1) := leave joinedTopic (userCounts st) in
      let counts2 := set counts1 t (incremented (get counts1 t)) in
      ({| userCounts := counts2; sockets := <[id := Some t]> (sockets st) |},
       out1 ++ [(t, get counts2 t)])
  end.

(** [socket.on('disconnect')]; the socket and its handlers are gone
    afterwards. *)
Definition disconnect (id : N) (st : state) : state * list emission :=
  match sockets st !! id with
  | None => (st, [])
  | Some joinedTopic =>
      let '(counts1, out1) := leave joinedTopic (userCounts st) in
      ({| userCounts := counts1; sockets := delete id (sockets st) |}, out1)
  end.

Inductive event :=
| Connect (id : N)
| Join (id : N) (t : jsstring)
| Disconnect (id : N).

Definition step (st : state) (e : event) : state * list emission :=
  match e with
  | Connect id => (connection id st, [])
  | Join id t => joinTopic id t st
  | Disconnect id => disconnect id st
  end.

Fixpoint run (st : state) (events : list event) : state * list emission :=
  match events with
  | [] => (st, [])
  | e :: rest =>
      let '(st1, out1) := step st e in
      let '(st2, out2) := run st1 rest in
      (st2, out1 ++ out2)
  end.

(** The number of connected clients whose [joinedTopic] is [t]. *)
Definition joined_to (t : jsstring) (s : gmap N (option jsstring)) : nat :=
  size (filter (fun kv => snd kv = Some t) s).

(** The registry invariant as the specification words it: every entry of
    [userCounts] is the number of connected clients joined to its key. *)
Definition counts_clients (st : state) : Prop :=
  forall t v, userCounts st !! t = Some v ->
    v = num (Z.of_nat (joined_to t (sockets st))).

(** A topic the handlers account for: not the empty string, which
    [if (joinedTopic)] takes for no topic, and not a name that
    [userCounts] inherits. *)
Definition accounted (t : jsstring) : Prop :=
  t <> [] /\ t ∉ prototype_names.

Definition accounted_event (e : event) : Prop :=
  match e with
  | Join _ t => accounted t
  | _ => True
  end.

(** The invariant of the handlers on accounted topics: the entries of
    [userCounts] are the numbers of joined clients, every joined topic is
    accounted, and a topic without entry has no client. *)
Record consistent (st : state) : Prop := {
  counts_ok : forall t v, userCounts st !! t = Some v ->
    accounted t /\ v = num (Z.of_nat (joined_to t (sockets st)));
  joined_ok : forall id t, sockets st !! id = Some (Some t) -> accounted t;
  absent_ok : forall t, userCounts st !! t = None ->
    joined_to t (sockets st) = 0%nat
}.

End Registry.

(** * Shapes of lines and of numerals

    The lines and parameters in whose terms the behaviour of the
    tokenizer and of [parseInt] is stated below. *)

Module Shapes.
Import Codec.

(** Fields written one after the other, a comma after each but the last. *)
Definition unquoted_line (fields : list jsstring) (last : jsstring)
    : jsstring :=
  concat (map (fun f => f ++ [COMMA]) fields) ++ last.

(** The same with every field wrapped in quotes, its quotes doubled, as
    [/save] writes topic, sender and body. *)
Definition quoted_line (fields : list jsstring) (last : jsstring)
    : jsstring :=
  concat (map (fun f => quoted (double_quotes f) ++ [COMMA]) fields)
    ++ quoted (double_quotes last).

(** The number of commas of a line. *)
Fixpoint commas (line : jsstring) : nat :=
  match line with
  | [] => 0
  | c :: rest => if N.eqb c COMMA then S (commas rest) else commas rest
  end.

Definition trimmed (s : jsstring) : Prop := trim s = s.

(** A decimal digit, and the number a string of decimal digits writes. *)
Definition is_decimal (c : N) : bool := N.leb 48 c && N.leb c 57.

Definition decimal_value (digits : jsstring) : Z :=
  fold_left (fun acc c => (10 * acc + (Z.of_N c - 48))%Z) digits 0%Z.

(** What every message of a query for the topic [t] looks like. *)
Definition well_shaped (t : jsstring) (m : LogStore.message) : Prop :=
  LogStore.topic m = t /\
  LogStore.sender m = LogStore.username m /\
  trimmed (LogStore.timestamp m) /\
  trimmed (LogStore.username m) /\
  trimmed (LogStore.message_text m).

(** Two records in the order the comparator leaves them in: the first
    is not the later one, or one of the two timestamps is no date. *)
Definition in_order (Date : jsstring -> option Z)
    (a b : LogStore.message) : Prop :=
  match Date (LogStore.timestamp a), Date (LogStore.timestamp b) with
  | Some x, Some y => (x <= y)%Z
  | _, _ => True
  end.



(** The message that the scan makes of the line of a request body. *)
Definition message_of_body (b : save_body) : LogStore.message :=
  {| LogStore.timestamp := trim (template (timestamp b));
     LogStore.topic := trim (or_undefined (topic b));
     LogStore.username := trim (written_sender b);
     LogStore.message_text := trim (or_undefined (payload b));
     LogStore.sender := trim (written_sender b) |}.

(** The log file of the name is absent, or is a file whose text ends
    with a line break. *)
Definition ready_for_append (name : jsstring) (entries : LogStore.listing)
    : Prop :=
  match LogStore.find_entry name entries with
  | Some (LogStore.File content) => exists c, content = c ++ [NL]
  | Some LogStore.Directory => False
  | None => True
  end.





(** The greatest number up to which every integer is a double: 2^53. *)
Definition max_exact : Z := 9007199254740992.

(** Text that a file holds as it is written: [appendFileSync] writes
    UTF-8, in which a surrogate without its partner becomes U+FFFD, so
    the text read back is the text written when every high surrogate
    is followed by a low one and every low one follows a high one. *)
Definition is_high_surrogate (c : N) : bool := N.leb 55296 c && N.leb c 56319.
Definition is_low_surrogate (c : N) : bool := N.leb 56320 c && N.leb c 57343.

Fixpoint well_formed (s : jsstring) : bool :=
  match s with
  | [] => true
  | c :: rest =>
      if is_high_surrogate c then
        match rest with
        | d :: rest' => is_low_surrogate d && well_formed rest'
        | [] => false
        end
      else if is_low_surrogate c then false
      else well_formed rest
  end.

(** A user name whose file is an entry of the directory under the name
    the model gives it: no path separator, no NUL, and no surrogate
    without its partner.  (The file system is taken to keep names as
    they are given.) *)
Definition kept_name (name : jsstring) : bool :=
  LogStore.plain_name name && well_formed name.

(** A request body that [/save] stores as the model has it: the user
    name is a kept name and the line is read back as it is written. *)
Definition storable (b : save_body) : Prop :=
  kept_name (template (username b)) = true /\
  well_formed (save_line b) = true.

(** Two clients on the topic a, for the examples. *)
Definition two_on_a : list Registry.event :=
  [ Registry.Connect 1; Registry.Connect 2;
    Registry.Join 1 (lit "a"); Registry.Join 2 (lit "a") ].

End Shapes.

(** * [app.get('/debug/messages/:topic')] *)

Module Debug.
Import LogStore.

Section Locale.

Variable Date : jsstring -> option Z.

(** [toLocaleString s] is the text of [new Date(s).toLocaleString()],
    which the locale and the time zone of the process decide. *)
Variable toLocaleString : jsstring -> jsstring.

Record debug_entry := {
  time : jsstring;
  user : jsstring;
  msg : jsstring
}.

Record debug_reply := {
  debug_topic : jsstring;
  messageCount : nat;
  debug_list : list debug_entry   (* the property [messages] *)
}.

(** Lines 260-272; the [catch] of the handler has nothing to catch. *)
Definition debug_messages (st : storage) (topic_param : jsstring)
    : debug_reply :=
  let messages := getMessagesForTopic Date st topic_param 50 in
  {| debug_topic := topic_param;
     messageCount := length messages;
     debug_list :=
       map (fun m => {| time := toLocaleString (timestamp m);
                        user := username m;
                        msg := message_text m |}) messages |}.

End Locale.

End Debug.

(** * [app.post('/save-state')] and [app.get('/load-state/:username')]

    The state of the components of a user, one file per user name under
    [stateDir].  The fields of the request are taken at the types their
    defaults have: text for the button and the indicator, a boolean for
    the switch, each of them possibly absent.  A file holds the text
    [JSON.stringify(stateData, null, 2)]; the model keeps the document
    that [JSON.parse] reads back from that text, which for text and
    booleans is the document that was written, without the properties
    that were [undefined]. *)

Module StateStore.

Record state_body := {
  username : option jsstring;
  buttonState : option jsstring;
  switchState : option bool;
  indicatorValue : option jsstring
}.

Record stateData := {
  doc_username : option jsstring;    (* the property [username] *)
  doc_buttonState : jsstring;        (* [buttonState] *)
  doc_switchState : bool;            (* [switchState] *)
  doc_indicatorValue : jsstring;     (* [indicatorValue] *)
  doc_lastUpdated : option jsstring  (* [lastUpdated] *)
}.

(** What is behind a name of [stateDir]: a state file, or something
    that [readFileSync] and [writeFileSync] throw on (a directory).  The
    directory is [None] when it is gone. *)
Inductive state_entry :=
| Document (d : stateData)
| Blocked.

Inductive state_response :=
| state_saved                  (* status 200, success: true *)
| state_loaded (d : stateData) (* status 200, success: true, state *)
| state_error.                 (* status 500, success: false *)

Definition stateFile (name : option jsstring) : jsstring :=
  template name ++ lit "_state.json".

(** The object [stateData] of lines 211-217; [now] is the text of
    [new Date().toISOString()]. *)
Definition stateData_of (now : jsstring) (b : state_body) : stateData :=
  {| doc_username := username b;
     doc_buttonState := or_str (or_undefined (buttonState b)) (lit "OFF");
     doc_switchState := default false (switchState b);
     doc_indicatorValue :=
       or_str (or_undefined (indicatorValue b)) (lit "000");
     doc_lastUpdated := Some now |}.

(** Lines 204-228: [writeFileSync] replaces the file, and throws when
    the directory is gone or the name is a directory.  The directory is
    kept by file name: [path.join(stateDir, name)] is the entry [name]
    of the directory when the user name holds no path separator, no NUL
    and no surrogate without its partner, and the file system keeps
    names as they are given.  With a separator in the user name the
    code resolves the path to another entry or fails, so what is stated
    below of one user name after saves for others is stated for such
    names ([Shapes.kept_name]). *)
Definition save_state (now : jsstring)
    (dir : option (gmap jsstring state_entry)) (b : state_body)
    : option (gmap jsstring state_entry) * state_response :=
  match dir with
  | None => (None, state_error)
  | Some files =>
      match files !! stateFile (username b) with
      | Some Blocked => (Some files, state_error)
      | _ =>
          (Some (<[stateFile (username b) := Document (stateData_of now b)]>
                   files),
           state_saved)
      end
  end.

(** The object [defaultState] of lines 242-247. *)
Definition defaultState (name : jsstring) : stateData :=
  {| doc_username := Some name;
     doc_buttonState := lit "OFF";
     doc_switchState := false;
     doc_indicatorValue := lit "000";
     doc_lastUpdated := None |}.

(** Lines 231-256: the route parameter is a string, and the file is
    looked up by its name in the directory, as [save_state] keeps it. *)
Definition load_state (dir : option (gmap jsstring state_entry))
    (name : jsstring) : state_response :=
  match dir with
  | None => state_loaded (defaultState name)
  | Some files =>
      match files !! stateFile (Some name) with
      | Some (Document d) => state_loaded d
      | Some Blocked => state_error
      | None => state_loaded (defaultState name)
      end
  end.

(** One [/save-state] after the other, each with the time it is served
    at. *)
Definition save_states (dir : option (gmap jsstring state_entry))
    (requests : list (jsstring * state_body))
    : option (gmap jsstring state_entry) :=
  fold_left (fun dir r => fst (save_state (fst r) dir (snd r))) requests dir.

(** A state file as [/save-state] leaves it: a document whose button
    and indicator are not empty. *)
Definition filled (e : state_entry) : Prop :=
  match e with
  | Document d => doc_buttonState d <> [] /\ doc_indicatorValue d <> []
  | Blocked => False
  end.

(** A request for the examples. *)
Definition dimmed : state_body :=
  {| username := Some (lit "alice");
     buttonState := Some (lit "ON");
     switchState := Some true;
     indicatorValue := Some [] |}.

End StateStore.

(** * The tokenizer on the lines that [/save] writes *)

Section CodecFacts.
Import Codec.

Lemma parse_loop_other c rest result current q :
  c <> DQ ->
  parse_loop (c :: rest) result current q =
    if N.eqb c COMMA && negb q
    then parse_loop rest (result ++ [trim current]) [] q
    else parse_loop rest result (current ++ [c]) q.
Proof.
  intros Hc. apply N.eqb_neq in Hc.
  destruct rest; simpl; rewrite Hc; reflexivity.
Qed.

Lemma parse_loop_escaped rest result current :
  parse_loop (DQ :: DQ :: rest) result current true =
  parse_loop rest result (current ++ [DQ]) true.
Proof. reflexivity. Qed.

Lemma parse_loop_toggle rest result current q :
  q = false \/ head rest <> Some DQ ->
  parse_loop (DQ :: rest) result current q =
  parse_loop rest result current (negb q).
Proof.
  intros H. destruct rest as [|d rest]; [reflexivity|].
  simpl. destruct H as [-> | H]; [reflexivity|].
  destruct (N.eqb_spec d DQ) as [->|_]; [now elim H|].
  now rewrite andb_false_r.
Qed.

Lemma parse_loop_comma rest result current :
  parse_loop (COMMA :: rest) result current false =
  parse_loop rest (result ++ [trim current]) [] false.
Proof. now rewrite parse_loop_other. Qed.

Lemma parse_loop_end result current q :
  parse_loop [] result current q =
  if truthy_str current then result ++ [trim current] else result.
Proof. reflexivity. Qed.

#[local] Arguments parse_loop : simpl never.

(** Outside quotes, text free of quotes and commas is accumulated. *)
Lemma parse_loop_plain s rest result current :
  Forall (fun c => c <> DQ /\ c <> COMMA) s ->
  parse_loop (s ++ rest) result current false =
  parse_loop rest result (current ++ s) false.
Proof.
  intros Hs. revert current.
  induction Hs as [|c s [Hq Hc] _ IH]; intros current.
  - now rewrite app_nil_r.
  - rewrite <- app_comm_cons, parse_loop_other by assumption.
    apply N.eqb_neq in Hc. rewrite Hc. simpl.
    rewrite IH, <- app_assoc. reflexivity.
Qed.

(** Inside quotes, a field with its quotes doubled is read back up to
    the closing quote. *)
Lemma parse_loop_quoted s rest result current :
  head rest <> Some DQ ->
  parse_loop (double_quotes s ++ DQ :: rest) result current true =
  parse_loop rest result (current ++ s) false.
Proof.
  intros Hrest. revert current.
  induction s as [|c s IH]; intros current.
  - simpl. rewrite parse_loop_toggle by now right.
    now rewrite app_nil_r.
  - simpl. destruct (N.eqb_spec c DQ) as [->|Hc].
    + simpl. rewrite parse_loop_escaped, IH, <- app_assoc. reflexivity.
    + simpl. rewrite parse_loop_other by assumption.
      rewrite andb_false_r, IH, <- app_assoc. reflexivity.
Qed.

Lemma parse_loop_field s rest result current :
  head rest <> Some DQ ->
  parse_loop (quoted (double_quotes s) ++ rest) result current false =
  parse_loop rest result (current ++ s) false.
Proof.
  intros Hrest. unfold quoted.
  rewrite <- app_comm_cons, parse_loop_toggle by now left.
  rewrite <- app_assoc. simpl. now apply parse_loop_quoted.
Qed.

(** The fields of a line of timestamp, topic, sender and body followed by [tl],
    where [tl] is text without quote or comma. *)
Lemma parse_fields ts t s b tl :
  plain ts -> plain tl ->
  parseCSVLine
    (ts ++ COMMA :: quoted (double_quotes t) ++ COMMA ::
       quoted (double_quotes s) ++ COMMA :: quoted (double_quotes b) ++ tl) =
  [trim ts; trim t; trim s] ++
    (if truthy_str (b ++ tl) then [trim (b ++ tl)] else []).
Proof.
  intros Hts Htl. unfold parseCSVLine.
  rewrite parse_loop_plain, parse_loop_comma by assumption.
  rewrite parse_loop_field, parse_loop_comma by (now simpl).
  rewrite parse_loop_field, parse_loop_comma by (now simpl).
  rewrite parse_loop_field.
  2:{ destruct Htl as [|c tl [Hc _] _]; simpl; congruence. }
  replace tl with (tl ++ []) at 1 by apply app_nil_r.
  rewrite parse_loop_plain, parse_loop_end by assumption. simpl.
  destruct (truthy_str (b ++ tl)); reflexivity.
Qed.

End CodecFacts.

Section TrimFacts.
Import Codec.

Lemma trim_start_snoc s w :
  is_white_space w = true ->
  trim_start (s ++ [w]) =
    match trim_start s with [] => [] | r => r ++ [w] end.
Proof.
  intros Hw. induction s as [|c s IH]; simpl.
  - now rewrite Hw.
  - destruct (is_white_space c); [exact IH | reflexivity].
Qed.

(** A line break after the text does not change what [trim] returns. *)
Lemma trim_snoc s w : is_white_space w = true -> trim (s ++ [w]) = trim s.
Proof.
  intros Hw. unfold trim. rewrite trim_start_snoc by assumption.
  destruct (trim_start s) as [|c r] eqn:E; [reflexivity|].
  rewrite rev_app_distr. simpl rev at 2. simpl app.
  cbn [trim_start]. now rewrite Hw.
Qed.

Lemma truthy_str_snoc (s : jsstring) c : truthy_str (s ++ [c]) = true.
Proof. now destruct s. Qed.

End TrimFacts.

Section CodecClaims.
Import Codec.

(** What [/save] writes for a record reads back, from the file text or
    from the line with its line break, as the trimmed fields; an empty
    body leaves no fourth field in the file text. *)
Lemma parse_record_text b :
  plain (template (timestamp b)) ->
  parseCSVLine (record_text b) =
    [trim (template (timestamp b)); trim (or_undefined (topic b));
     trim (written_sender b)] ++
    (if truthy_str (or_undefined (payload b))
     then [trim (or_undefined (payload b))] else []).
Proof.
  intros Hts. unfold record_text, safeTopic, safeSender, safePayload.
  pose proof (parse_fields (template (timestamp b)) (or_undefined (topic b))
    (written_sender b) (or_undefined (payload b)) [] Hts
    ltac:(constructor)) as H.
  rewrite !app_nil_r in H. exact H.
Qed.

Lemma parse_save_line b :
  plain (template (timestamp b)) ->
  parseCSVLine (save_line b) =
    [trim (template (timestamp b)); trim (or_undefined (topic b));
     trim (written_sender b); trim (or_undefined (payload b))].
Proof.
  intros Hts. unfold save_line, record_text, safeTopic, safeSender, safePayload.
  pose proof (parse_fields (template (timestamp b)) (or_undefined (topic b))
    (written_sender b) (or_undefined (payload b)) [NL] Hts) as H.
  rewrite truthy_str_snoc, trim_snoc in H by reflexivity.
  specialize (H ltac:(repeat constructor; discriminate)).
  etransitivity; [|exact H].
  f_equal. unfold written_sender, quoted.
  repeat (rewrite <- app_assoc; simpl). reflexivity.
Qed.

End CodecClaims.

Section CodecTheorems.
Import Codec LogStore.

#[local] Arguments parse_loop : simpl never.

Lemma ends_in_quotes_other c rest q :
  c <> DQ -> ends_in_quotes (c :: rest) q = ends_in_quotes rest q.
Proof.
  intros Hc. apply N.eqb_neq in Hc.
  destruct rest; simpl; rewrite Hc; reflexivity.
Qed.

Lemma ends_in_quotes_open rest :
  ends_in_quotes (DQ :: rest) false = ends_in_quotes rest true.
Proof. destruct rest; reflexivity. Qed.

Lemma ends_in_quotes_plain s rest :
  plain s -> ends_in_quotes (s ++ rest) false = ends_in_quotes rest false.
Proof.
  induction 1 as [|c s [Hc _] _ IH]; [reflexivity|].
  rewrite <- app_comm_cons, ends_in_quotes_other; assumption.
Qed.



(** C1, as amended: for a record whose timestamp holds no comma and no
    quote, whose topic, sender (the user name when no sender is sent)
    and body have no white space at either end, and whose body is not
    empty, [parseCSVLine] applied to the line that [/save] makes of it,
    taken without or with its final line break, returns the trimmed
    timestamp followed by the topic, the sender and the body, unchanged.
    This is the tokenizer on the text of the line; what a scan reads
    back from a log file is stated apart, with the save. *)
Theorem round_trip_of_trimmed_record (b : save_body) :
  plain (template (Codec.timestamp b)) ->
  trim (or_undefined (Codec.topic b)) = or_undefined (Codec.topic b) ->
  trim (written_sender b) = written_sender b ->
  trim (or_undefined (payload b)) = or_undefined (payload b) ->
  or_undefined (payload b) <> [] ->
  parseCSVLine (record_text b) =
    [trim (template (Codec.timestamp b)); or_undefined (Codec.topic b);
     written_sender b; or_undefined (payload b)] /\
  parseCSVLine (save_line b) =
    [trim (template (Codec.timestamp b)); or_undefined (Codec.topic b);
     written_sender b; or_undefined (payload b)].
Proof.
  intros Hts Ht Hs Hp Hne.
  rewrite parse_record_text, parse_save_line by assumption.
  rewrite Ht, Hs, Hp.
  destruct (or_undefined (payload b)); [now elim Hne|].
  split; reflexivity.
Qed.

Lemma round_trip_of_trimmed_record_witness :
  parseCSVLine (record_text sunny) =
    [lit "2024-01-01T00:00:00Z"; lit "weather"; lit "alice";
     lit "sunny, with " ++ [DQ] ++ lit "some" ++ [DQ] ++ lit " rain"] /\
  parseCSVLine (save_line sunny) =
    [lit "2024-01-01T00:00:00Z"; lit "weather"; lit "alice";
     lit "sunny, with " ++ [DQ] ++ lit "some" ++ [DQ] ++ lit " rain"].
Proof.
  apply (round_trip_of_trimmed_record sunny).
  - repeat constructor; discriminate.
  - reflexivity.
  - reflexivity.
  - reflexivity.
  - discriminate.
Defined.

(** C1, as stated, fails: a body that starts with a space comes back
    without it. *)
Lemma round_trip_drops_leading_space :
  ~ decodes_back (record_text indented) indented /\
  ~ decodes_back (save_line indented) indented.
Proof.
  split; intros [ts H]; vm_compute in H; discriminate H.
Qed.




(** C8: the body of the example, He said hi with quotes around hi, is
    written as the field that wraps it in quotes and doubles its two
    quotes, and that field, alone on a line or as the last field of the
    line of a record, is decoded to the body again. *)
Theorem quote_doubling (b : save_body) :
  payload b = Some he_said_hi ->
  plain (template (Codec.timestamp b)) ->
  quoted (safePayload b) = he_said_hi_field /\
  parseCSVLine he_said_hi_field = [he_said_hi] /\
  parseCSVLine (record_text b) !! 3%nat = Some he_said_hi /\
  parseCSVLine (save_line b) !! 3%nat = Some he_said_hi.
Proof.
  intros Hp Hts.
  rewrite parse_record_text, parse_save_line by assumption.
  unfold safePayload. rewrite Hp.
  repeat split; reflexivity.
Qed.

Lemma quote_doubling_witness :
  quoted (safePayload quoting) = he_said_hi_field /\
  parseCSVLine he_said_hi_field = [he_said_hi] /\
  parseCSVLine (record_text quoting) !! 3%nat = Some he_said_hi /\
  parseCSVLine (save_line quoting) !! 3%nat = Some he_said_hi.
Proof.
  apply (quote_doubling quoting).
  - reflexivity.
  - repeat constructor; discriminate.
Defined.

End CodecTheorems.

(** * The scan and the query *)

Section SortFacts.
Import LogStore.
Context {A : Type} (comparefn : A -> A -> option Z).

Lemma sort_insert_perm x l : Permutation (sort_insert comparefn x l) (x :: l).
Proof.
  induction l as [|y l IH]; simpl; [reflexivity|].
  destruct (not_after comparefn x y); [reflexivity|].
  rewrite IH. apply perm_swap.
Qed.

Lemma sort_perm l : Permutation (sort comparefn l) l.
Proof.
  induction l as [|x l IH]; simpl; [reflexivity|].
  rewrite sort_insert_perm. now constructor.
Qed.

Lemma sort_length l : length (sort comparefn l) = length l.
Proof. apply Permutation_length, sort_perm. Qed.

(** When the comparator decides a total order [R] on the elements, an
    insertion keeps a sorted list sorted. *)
Variable R : A -> A -> Prop.
Variable ok : A -> Prop.
Hypothesis decides : forall x y, ok x -> ok y ->
  if not_after comparefn x y then R x y else R y x.

Lemma sort_insert_HdRel y x l :
  ok x -> Forall ok l -> R y x -> HdRel R y l ->
  HdRel R y (sort_insert comparefn x l).
Proof.
  intros Hx Hl Hyx Hd. destruct l as [|z l]; simpl; [now constructor|].
  destruct (not_after comparefn x z); constructor; [assumption|].
  now inversion Hd.
Qed.

Lemma sort_insert_Sorted x l :
  ok x -> Forall ok l -> Sorted R l -> Sorted R (sort_insert comparefn x l).
Proof.
  intros Hx Hl Hs. induction Hs as [|y l Hs IH Hd]; simpl.
  - repeat constructor.
  - inversion Hl as [|? ? Hy Hl']; subst.
    pose proof (decides x y Hx Hy) as Hxy.
    destruct (not_after comparefn x y).
    + repeat constructor; assumption.
    + constructor; [now apply IH|]. now apply sort_insert_HdRel.
Qed.

Lemma sort_Sorted l : Forall ok l -> Sorted R (sort comparefn l).
Proof.
  induction 1 as [|x l Hx Hl IH]; simpl; [constructor|].
  apply sort_insert_Sorted; [assumption| |assumption].
  eapply Permutation_Forall; [symmetry; apply sort_perm | assumption].
Qed.

End SortFacts.

Section SliceFacts.
Import LogStore.

(** [a.slice(-limit)] keeps the last [limit] elements when [limit] is at
    least 1. *)
Lemma slice_last {A} (a : list A) (limit : Z) :
  (1 <= limit)%Z ->
  slice a (- limit) = drop (length a - Z.to_nat limit) a.
Proof.
  intros Hl. unfold slice.
  destruct (Z.ltb_spec (- limit) 0); [|lia].
  f_equal. lia.
Qed.

Lemma slice_all {A} (a : list A) (limit : Z) :
  (Z.of_nat (length a) <= limit)%Z -> (1 <= limit)%Z ->
  slice a (- limit) = a.
Proof.
  intros Hlen Hl. rewrite slice_last by assumption.
  replace (length a - Z.to_nat limit)%nat with 0%nat by lia. reflexivity.
Qed.

End SliceFacts.

Section ScanFacts.
Import Codec LogStore.

Lemma scan_line_quiet t line : snd (scan_line t line) = [].
Proof.
  unfold scan_line, try_parseCSVLine.
  destruct (truthy_str (trim line)); [|reflexivity].
  destruct (parseCSVLine line) as [|f0 [|f1 [|f2 [|f3 fs]]]]; try reflexivity.
  now destruct (bool_decide (f1 = t)).
Qed.

Lemma scan_line_topic t line :
  Forall (fun m => topic m = t) (fst (scan_line t line)).
Proof.
  unfold scan_line, try_parseCSVLine.
  destruct (truthy_str (trim line)); [|constructor].
  destruct (parseCSVLine line) as [|f0 [|f1 [|f2 [|f3 fs]]]]; try constructor.
  destruct (bool_decide_reflect (f1 = t)); simpl; repeat constructor.
  assumption.
Qed.

Lemma scan_lines_cons t line lines :
  scan_lines t (line :: lines) =
    (fst (scan_line t line) ++ fst (scan_lines t lines),
     snd (scan_line t line) ++ snd (scan_lines t lines)).
Proof.
  simpl. destruct (scan_line t line), (scan_lines t lines). reflexivity.
Qed.

Lemma scan_lines_quiet t lines : snd (scan_lines t lines) = [].
Proof.
  induction lines as [|line lines IH]; [reflexivity|].
  rewrite scan_lines_cons. simpl. now rewrite scan_line_quiet, IH.
Qed.

Lemma scan_lines_topic t lines :
  Forall (fun m => topic m = t) (fst (scan_lines t lines)).
Proof.
  induction lines as [|line lines IH]; [constructor|].
  rewrite scan_lines_cons. simpl.
  apply Forall_app. split; [apply scan_line_topic | exact IH].
Qed.

Lemma scan_lines_app t l1 l2 :
  fst (scan_lines t (l1 ++ l2)) =
  fst (scan_lines t l1) ++ fst (scan_lines t l2).
Proof.
  induction l1 as [|line l1 IH]; [reflexivity|].
  rewrite <- app_comm_cons, !scan_lines_cons. simpl.
  now rewrite IH, app_assoc.
Qed.

Lemma scan_files_messages t files ms out :
  fst (scan_files t files ms out) =
    match stored_messages t files with
    | Normal l => Normal (ms ++ l)
    | Throw => Throw
    end.
Proof.
  revert ms out. induction files as [|[name [content|]] files IH];
    intros ms out; simpl.
  - now rewrite app_nil_r.
  - destruct (scan_lines t (drop 1 (split_lines content))) as [ms' out'] eqn:E.
    rewrite IH. unfold file_messages. rewrite E. simpl.
    destruct (stored_messages t files); [|reflexivity].
    now rewrite app_assoc.
  - reflexivity.
Qed.

Lemma scan_files_quiet t files ms out :
  snd (scan_files t files ms out) = out.
Proof.
  revert ms out. induction files as [|[name [content|]] files IH];
    intros ms out; simpl; try reflexivity.
  pose proof (scan_lines_quiet t (drop 1 (split_lines content))) as Hq.
  destruct (scan_lines t (drop 1 (split_lines content))) as [ms' out'].
  simpl in Hq. subst out'. rewrite IH. apply app_nil_r.
Qed.

Lemma stored_messages_topic t files l :
  stored_messages t files = Normal l -> Forall (fun m => topic m = t) l.
Proof.
  revert l. induction files as [|[name [content|]] files IH];
    intros l; simpl.
  - intros [= <-]. constructor.
  - destruct (stored_messages t files) as [ms|]; [|discriminate].
    intros [= <-]. apply Forall_app. split; [apply scan_lines_topic|].
    now apply IH.
  - discriminate.
Qed.

Lemma stored_messages_unreadable t files name :
  (name, Directory) ∈ files -> stored_messages t files = Throw.
Proof.
  induction files as [|[n [content|]] files IH]; simpl; intros Hin.
  - now apply elem_of_nil in Hin.
  - apply elem_of_cons in Hin as [[=]|Hin]. now rewrite IH.
  - reflexivity.
Qed.

Variable Date : jsstring -> option Z.

(** What the query returns and writes, from what the files hold. *)
Lemma getMessagesForTopic_io_listed entries t limit :
  getMessagesForTopic_io Date (Some entries) t limit =
    match stored_messages t (csv_files entries) with
    | Normal l =>
        let sorted := slice (sort (compare_timestamps Date) l) (- limit) in
        (sorted, [log_loading t (length (csv_files entries));
                  log_returning (length sorted) t])
    | Throw =>
        ([], [log_loading t (length (csv_files entries)); error_reading])
    end.
Proof.
  unfold getMessagesForTopic_io.
  pose proof (scan_files_messages t (csv_files entries) []
    [log_loading t (length (csv_files entries))]) as Hm.
  pose proof (scan_files_quiet t (csv_files entries) []
    [log_loading t (length (csv_files entries))]) as Hq.
  destruct (scan_files _ _ _ _) as [c out]. simpl in Hm, Hq. subst c out.
  destruct (stored_messages t (csv_files entries)); reflexivity.
Qed.

End ScanFacts.

Section QueryTheorems.
Import Codec LogStore.
Variable Date : jsstring -> option Z.

Lemma compare_timestamps_decides (x y : message) :
  is_Some (Date (timestamp x)) ->
  is_Some (Date (timestamp y)) ->
  if not_after (compare_timestamps Date) x y
  then not_later Date x y else not_later Date y x.
Proof.
  intros [dx Hx] [dy Hy]. unfold not_after, compare_timestamps.
  rewrite Hx, Hy. destruct (Z.leb_spec (dx - dy) 0).
  - exists dx, dy. repeat split; [assumption..|lia].
  - exists dy, dx. repeat split; [assumption..|lia].
Qed.

Lemma not_later_trans : Transitive (not_later Date).
Proof.
  intros a b c (x & y & Ha & Hb & Hxy) (y' & z & Hb' & Hc & Hyz).
  exists x, z. rewrite Hb in Hb'. injection Hb' as <-.
  repeat split; [assumption..|lia].
Qed.

(** C3, as amended: when every record of the topic has a timestamp that
    is a date, and the limit is at least 1, the query returns the last
    [limit] records (all of them when there are fewer) of the records of
    the topic sorted ascending by time.  A timestamp that is no date is
    not placed first: it compares as equal to every other. *)
Theorem query_sorted_by_time (entries : listing) (t : jsstring)
    (limit : Z) (messages : list message) :
  stored_messages t (csv_files entries) = Normal messages ->
  Forall (fun m => is_Some (Date (timestamp m))) messages ->
  (1 <= limit)%Z ->
  let sorted := sort (compare_timestamps Date) messages in
  Permutation sorted messages /\
  StronglySorted (not_later Date) sorted /\
  Forall (fun m => topic m = t) sorted /\
  getMessagesForTopic Date (Some entries) t limit =
    drop (length sorted - Z.to_nat limit) sorted.
Proof.
  intros Hst Hdated Hlimit sorted. subst sorted.
  split; [apply sort_perm|]. split; [|split].
  - apply Sorted_StronglySorted; [apply not_later_trans|].
    eapply sort_Sorted; [|exact Hdated].
    apply compare_timestamps_decides.
  - eapply Permutation_Forall; [symmetry; apply sort_perm|].
    eapply stored_messages_topic, Hst.
  - unfold getMessagesForTopic.
    rewrite getMessagesForTopic_io_listed, Hst. simpl.
    now apply slice_last.
Qed.

(** C7, as amended: when the directory cannot be listed or one of its
    log files cannot be read, the query writes the error to the console
    and returns no record, and the endpoint answers with success, no
    message and a count of zero; no exception leaves either. *)
Theorem unavailable_storage_reads_as_empty (st : storage) (t : jsstring)
    (limit : Z) (limit_param : option jsstring) :
  storage_unavailable st ->
  getMessagesForTopic Date st t limit = [] /\
  last (snd (getMessagesForTopic_io Date st t limit)) = Some error_reading /\
  get_messages Date st t limit_param = json_messages [] t 0.
Proof.
  intros Hun.
  assert (forall l, exists out,
    getMessagesForTopic_io Date st t l = ([], out ++ [error_reading]))
    as Hio.
  { intros l. destruct st as [entries|]; [|now exists []].
    destruct Hun as [name Hin].
    rewrite getMessagesForTopic_io_listed.
    rewrite (stored_messages_unreadable _ _ _ Hin). now eexists [_]. }
  unfold getMessagesForTopic, get_messages, get_messages_io.
  destruct (Hio limit) as [out ->].
  destruct (Hio (limit_of_query limit_param)) as [out' ->]. simpl.
  split; [reflexivity|]. split; [apply last_snoc | reflexivity].
Qed.

Lemma parseInt_undefined : parseInt (template None) = None.
Proof. reflexivity. Qed.

End QueryTheorems.

Section LineFacts.
Import Codec LogStore.

Lemma split_lines_nonempty content : split_lines content <> [].
Proof.
  destruct content as [|c rest]; simpl; [discriminate|].
  destruct (N.eqb c NL); [discriminate|].
  destruct (split_lines rest); discriminate.
Qed.

(** Splitting at line feeds splits at the one in the middle. *)
Lemma split_lines_app a rest :
  split_lines (a ++ NL :: rest) = split_lines a ++ split_lines rest.
Proof.
  induction a as [|c a IH]; [reflexivity|].
  simpl. destruct (N.eqb c NL); rewrite IH; [reflexivity|].
  pose proof (split_lines_nonempty a).
  destruct (split_lines a); [contradiction | reflexivity].
Qed.

Lemma split_lines_one l :
  Forall (fun c => c <> NL) l -> split_lines l = [l].
Proof.
  induction 1 as [|c l Hc _ IH]; [reflexivity|].
  simpl. apply N.eqb_neq in Hc. now rewrite Hc, IH.
Qed.

Lemma split_lines_line l rest :
  Forall (fun c => c <> NL) l ->
  split_lines (l ++ NL :: rest) = l :: split_lines rest.
Proof.
  intros Hl. now rewrite split_lines_app, split_lines_one.
Qed.

Lemma trim_start_head s c r :
  trim_start s = c :: r -> is_white_space c = false.
Proof.
  induction s as [|d s IH]; simpl; [discriminate|].
  destruct (is_white_space d) eqn:E; [exact IH|].
  now intros [= <- _].
Qed.

Lemma trim_start_blank s :
  trim_start s = [] -> Forall (fun c => is_white_space c = true) s.
Proof.
  induction s as [|d s IH]; simpl; [constructor|].
  destruct (is_white_space d) eqn:E; [|discriminate].
  intros H. constructor; [assumption | now apply IH].
Qed.

Lemma trim_blank s :
  trim s = [] -> Forall (fun c => is_white_space c = true) s.
Proof.
  unfold trim. intros H. apply trim_start_blank.
  destruct (trim_start s) as [|c r] eqn:E; [reflexivity|].
  apply trim_start_head in E.
  assert (trim_start (rev (c :: r)) = []) as H'.
  { destruct (trim_start (rev (c :: r))); [reflexivity|].
    simpl in H. now destruct (rev l). }
  apply trim_start_blank in H'.
  rewrite Forall_forall in H'.
  rewrite (H' c) in E; [discriminate|].
  apply list_elem_of_In, in_rev. rewrite rev_involutive. now left.
Qed.

(** A line of white space only has at most one field. *)
Lemma blank_line_fields line :
  truthy_str (trim line) = false -> (length (parseCSVLine line) <= 1)%nat.
Proof.
  intros H. assert (trim line = []) as Hb by now destruct (trim line).
  apply trim_blank in Hb.
  assert (plain line) as Hp.
  { eapply Forall_impl; [exact Hb|]. intros c Hc.
    split; intros ->; discriminate Hc. }
  unfold parseCSVLine.
  replace line with (line ++ []) at 1 by apply app_nil_r.
  rewrite parse_loop_plain, parse_loop_end by assumption. simpl.
  destruct (truthy_str line); simpl; lia.
Qed.

(** A line with four fields or more, the second being the topic, gives
    its message; a line with fewer gives none. *)
Lemma scan_line_match t line f0 f2 f3 fs :
  parseCSVLine line = f0 :: t :: f2 :: f3 :: fs ->
  scan_line t line =
    ([ {| timestamp := f0; topic := t; username := f2;
          message_text := f3; sender := f2 |} ], []).
Proof.
  intros H. unfold scan_line, try_parseCSVLine.
  destruct (truthy_str (trim line)) eqn:E.
  - rewrite H. now rewrite bool_decide_eq_true_2.
  - apply blank_line_fields in E. rewrite H in E. simpl in E. lia.
Qed.

Lemma scan_line_short t line :
  (length (parseCSVLine line) < 4)%nat -> scan_line t line = ([], []).
Proof.
  intros H. unfold scan_line, try_parseCSVLine.
  destruct (truthy_str (trim line)); [|reflexivity].
  destruct (parseCSVLine line) as [|f0 [|f1 [|f2 [|f3 fs]]]];
    try reflexivity.
  simpl in H. lia.
Qed.

End LineFacts.

Section ResilienceTheorems.
Import Codec LogStore.

Lemma query_sorted_by_time_witness :
  let messages :=
    [ message_of "2024-01-03T00:00:00.000Z" "alice" "three";
      message_of "2024-01-02T00:00:00.000Z" "alice" "two";
      message_of "2024-01-01T00:00:00.000Z" "bob" "one" ] in
  let sorted := sort (compare_timestamps sample_dates) messages in
  Permutation sorted messages /\
  StronglySorted (not_later sample_dates) sorted /\
  Forall (fun m => topic m = lit "weather") sorted /\
  getMessagesForTopic sample_dates (Some (default [] shuffled_store))
    (lit "weather") 2 = drop (length sorted - Z.to_nat 2) sorted.
Proof.
  apply (query_sorted_by_time sample_dates (default [] shuffled_store)
           (lit "weather") 2).
  - reflexivity.
  - repeat apply Forall_cons_2; try apply List.Forall_nil; eexists; reflexivity.
  - lia.
Defined.

(** C3, as stated, fails: a record whose timestamp is no date stays
    after the dated record it was saved after, instead of sorting as the
    earliest. *)
Lemma undated_record_is_not_first :
  sample_dates (lit "someday") = None /\
  getMessagesForTopic sample_dates undated_store (lit "weather") 10 =
    [ message_of "2024-01-02T00:00:00.000Z" "alice" "sunny";
      message_of "someday" "alice" "rain" ] /\
  earliest_first sample_dates
    (getMessagesForTopic sample_dates undated_store (lit "weather") 10)
  = false.
Proof. repeat split; reflexivity. Qed.

(** C6, as amended: a line with fewer than four fields between two lines
    that decode to records of the topic is passed over; with a limit of
    two or more both records are in the result of the query, no error
    leaves the scan, and nothing is written to the console about the
    line: the console holds no warning. *)
Theorem malformed_line_is_skipped (Date : jsstring -> option Z)
    (name hdr good1 bad good2 t : jsstring) (limit : Z)
    (f0 f2 f3 g0 g2 g3 : jsstring) (fs gs : list jsstring) :
  endsWith name (lit ".csv") = true ->
  Forall (fun c => c <> NL) hdr ->
  Forall (fun c => c <> NL) good1 ->
  Forall (fun c => c <> NL) bad ->
  Forall (fun c => c <> NL) good2 ->
  parseCSVLine good1 = f0 :: t :: f2 :: f3 :: fs ->
  parseCSVLine good2 = g0 :: t :: g2 :: g3 :: gs ->
  (length (parseCSVLine bad) < 4)%nat ->
  (2 <= limit)%Z ->
  let m1 := {| timestamp := f0; topic := t; username := f2;
               message_text := f3; sender := f2 |} in
  let m2 := {| timestamp := g0; topic := t; username := g2;
               message_text := g3; sender := g2 |} in
  let st := Some [(name, File (hdr ++ NL :: good1 ++ NL :: bad ++ NL ::
                                 good2 ++ [NL]))] in
  let r := getMessagesForTopic_io Date st t limit in
  m1 ∈ fst r /\ m2 ∈ fst r /\ length (fst r) = 2%nat /\
  existsb is_warning (snd r) = false /\
  snd r = [log_loading t 1; log_returning 2 t].
Proof.
  intros Hname Hh H1 Hb H2 P1 P2 Pb Hlimit m1 m2 st r.
  assert (stored_messages t (csv_files [(name,
            File (hdr ++ NL :: good1 ++ NL :: bad ++ NL :: good2 ++ [NL]))])
          = Normal [m1; m2]) as Hst.
  { unfold csv_files. rewrite filter_cons_True by exact Hname.
    rewrite filter_nil. simpl. unfold file_messages.
    rewrite !split_lines_line by assumption. simpl split_lines. simpl drop.
    rewrite !scan_lines_cons.
    rewrite (scan_line_match _ _ _ _ _ _ P1), (scan_line_match _ _ _ _ _ _ P2).
    rewrite (scan_line_short _ _ Pb). reflexivity. }
  subst r st. rewrite getMessagesForTopic_io_listed, Hst.
  assert (length (csv_files [(name,
            File (hdr ++ NL :: good1 ++ NL :: bad ++ NL :: good2 ++ [NL]))])
          = 1%nat) as ->.
  { unfold csv_files. now rewrite filter_cons_True by exact Hname. }
  cbv zeta. rewrite slice_all by (rewrite ?sort_length; simpl; lia).
  rewrite sort_length. cbn [fst snd length existsb is_warning orb].
  pose proof (sort_perm (compare_timestamps Date) [m1; m2]) as Hp.
  split; [|split].
  - rewrite Hp. apply list_elem_of_here.
  - rewrite Hp. apply list_elem_of_further, list_elem_of_here.
  - rewrite sort_length. repeat split.
Qed.

Lemma malformed_line_is_skipped_witness :
  let m1 := message_of "2024-01-01T00:00:00.000Z" "alice" "one" in
  let m2 := message_of "2024-01-02T00:00:00.000Z" "alice" "two" in
  let r := getMessagesForTopic_io sample_dates damaged_store
             (lit "weather") 10 in
  m1 ∈ fst r /\ m2 ∈ fst r /\ length (fst r) = 2%nat /\
  existsb is_warning (snd r) = false /\
  snd r = [log_loading (lit "weather") 1; log_returning 2 (lit "weather")].
Proof.
  apply (malformed_line_is_skipped sample_dates (lit "alice_messages.csv")
           (lit "Timestamp,Topic,Sender,Message")
           (record_text (body_of "2024-01-01T00:00:00.000Z" "alice" "one"))
           (lit "oops,what")
           (record_text (body_of "2024-01-02T00:00:00.000Z" "alice" "two"))
           (lit "weather") 10
           (lit "2024-01-01T00:00:00.000Z") (lit "alice") (lit "one")
           (lit "2024-01-02T00:00:00.000Z") (lit "alice") (lit "two") [] []).
  - reflexivity.
  - repeat constructor; discriminate.
  - repeat constructor; discriminate.
  - repeat constructor; discriminate.
  - repeat constructor; discriminate.
  - reflexivity.
  - reflexivity.
  - simpl. lia.
  - lia.
Defined.

(** C6, as stated, fails in its last part: the line of two fields is
    passed over, and the console holds the two lines of the query and no
    warning. *)
Lemma malformed_line_leaves_no_warning :
  parseCSVLine (lit "oops,what") = [lit "oops"; lit "what"] /\
  getMessagesForTopic_io sample_dates damaged_store (lit "weather") 10 =
    ([ message_of "2024-01-01T00:00:00.000Z" "alice" "one";
       message_of "2024-01-02T00:00:00.000Z" "alice" "two" ],
     [ log_loading (lit "weather") 1; log_returning 2 (lit "weather") ]) /\
  warn_parsing (lit "oops,what") ∉
    snd (getMessagesForTopic_io sample_dates damaged_store (lit "weather") 10).
Proof.
  split; [reflexivity|]. split; [reflexivity|].
  intros H. vm_compute in H.
  repeat (apply elem_of_cons in H as [H|H]; [discriminate H|]).
  now apply elem_of_nil in H.
Qed.

Lemma unavailable_storage_reads_as_empty_witness :
  getMessagesForTopic sample_dates unreadable_store (lit "weather") 10 = [] /\
  last (snd (getMessagesForTopic_io sample_dates unreadable_store
               (lit "weather") 10)) = Some error_reading /\
  get_messages sample_dates unreadable_store (lit "weather") None =
    json_messages [] (lit "weather") 0.
Proof.
  apply (unavailable_storage_reads_as_empty sample_dates unreadable_store).
  exists (lit "bob_messages.csv"). vm_compute.
  apply list_elem_of_further, list_elem_of_here.
Defined.

(** C7, as stated, fails: with a log file that cannot be read, the
    endpoint answers as it does for an empty directory, with success and
    no message, and not with an error. *)
Lemma unreadable_file_is_not_reported :
  storage_unavailable unreadable_store /\
  get_messages sample_dates unreadable_store (lit "weather") None =
    json_messages [] (lit "weather") 0 /\
  get_messages sample_dates unreadable_store (lit "weather") None <>
    json_error /\
  getMessagesForTopic sample_dates unreadable_store (lit "weather") 10 =
    getMessagesForTopic sample_dates (Some []) (lit "weather") 10.
Proof.
  split; [|repeat split; try reflexivity; discriminate].
  exists (lit "bob_messages.csv"). vm_compute.
  apply list_elem_of_further, list_elem_of_here.
Qed.

End ResilienceTheorems.

Section AppendFacts.
Import Codec LogStore.

Lemma no_line_break_double_quotes s :
  no_line_break s -> no_line_break (double_quotes s).
Proof.
  induction 1 as [|c s Hc _ IH]; [constructor|].
  simpl. destruct (N.eqb c DQ).
  - repeat (constructor; [discriminate|]). exact IH.
  - constructor; assumption.
Qed.

Lemma no_line_break_record_text b :
  no_line_break (template (Codec.timestamp b)) ->
  no_line_break (or_undefined (Codec.topic b)) ->
  no_line_break (written_sender b) ->
  no_line_break (or_undefined (payload b)) ->
  no_line_break (record_text b).
Proof.
  intros Hts Ht Hs Hp. unfold record_text, quoted, no_line_break.
  repeat first
    [ apply Forall_app; split
    | apply Forall_cons; split; [discriminate|]
    | apply List.Forall_nil
    | assumption
    | apply no_line_break_double_quotes; assumption ].
Qed.

(** A line without messages, added to a text that ends where a line
    ends, leaves the messages of the file as they were. *)
Lemma file_messages_append t content line :
  line_closed content ->
  no_line_break line ->
  scan_line t line = ([], []) ->
  file_messages t (content ++ line ++ [NL]) = file_messages t content.
Proof.
  intros Hc Hl Hline. unfold file_messages.
  assert (fst (scan_lines t [line; []]) = []) as Hnone.
  { rewrite !scan_lines_cons, Hline. reflexivity. }
  destruct Hc as [-> | [c ->]].
  - simpl app. rewrite split_lines_line by assumption. reflexivity.
  - rewrite <- app_assoc. simpl app.
    rewrite !split_lines_app, (split_lines_one line) by assumption.
    pose proof (split_lines_nonempty c) as Hne.
    destruct (split_lines c) as [|l ls]; [contradiction|].
    simpl. rewrite !drop_0, !scan_lines_app, Hnone. reflexivity.
Qed.

Lemma file_messages_new t line :
  no_line_break line ->
  scan_line t line = ([], []) ->
  file_messages t (header ++ line ++ [NL]) = [].
Proof.
  intros Hl Hline. unfold file_messages, header.
  rewrite <- app_assoc. simpl app at 2.
  rewrite split_lines_line by (repeat constructor; discriminate).
  rewrite split_lines_line by assumption.
  rewrite skipn_cons, drop_0, !scan_lines_cons, Hline. reflexivity.
Qed.

Lemma stored_messages_snoc t files name content :
  file_messages t content = [] ->
  stored_messages t (files ++ [(name, File content)]) =
  stored_messages t files.
Proof.
  intros Hnone. induction files as [|[n [c|]] files IH]; simpl.
  - now rewrite Hnone.
  - now rewrite IH.
  - reflexivity.
Qed.

Lemma stored_messages_append_to t name line entries content :
  find_entry name entries = Some (File content) ->
  file_messages t (content ++ line) = file_messages t content ->
  stored_messages t (csv_files (append_to name line entries)) =
  stored_messages t (csv_files entries).
Proof.
  intros Hfind Hsame. induction entries as [|[n e] entries IH];
    simpl in *; [discriminate|].
  destruct (bool_decide_reflect (n = name)) as [->|Hn].
  - injection Hfind as ->. unfold csv_files. rewrite !filter_cons. simpl.
    destruct (decide (endsWith name (lit ".csv") = true)); [|reflexivity].
    simpl. now rewrite Hsame.
  - unfold csv_files in *. rewrite !filter_cons. simpl.
    destruct (decide (endsWith n (lit ".csv") = true)); [|now apply IH].
    simpl. rewrite IH by assumption. reflexivity.
Qed.

Lemma find_entry_snoc name entries e :
  find_entry name entries = None ->
  find_entry name (entries ++ [(name, e)]) = Some e.
Proof.
  induction entries as [|[n e'] entries IH]; simpl.
  - now rewrite bool_decide_eq_true_2.
  - destruct (bool_decide (n = name)); [discriminate | exact IH].
Qed.

Lemma find_entry_append_to name line entries content :
  find_entry name entries = Some (File content) ->
  find_entry name (append_to name line entries) =
    Some (File (content ++ line)).
Proof.
  induction entries as [|[n e] entries IH]; simpl; [discriminate|].
  destruct (bool_decide (n = name)) eqn:E.
  - intros [= ->]. simpl. now rewrite E.
  - intros H. simpl. rewrite E. now apply IH.
Qed.

End AppendFacts.

Section EmptyBodyTheorems.
Import Codec LogStore.

Lemma getMessagesForTopic_stored Date entries entries' t limit :
  stored_messages t (csv_files entries') =
  stored_messages t (csv_files entries) ->
  getMessagesForTopic Date (Some entries') t limit =
  getMessagesForTopic Date (Some entries) t limit.
Proof.
  intros H. unfold getMessagesForTopic.
  rewrite !getMessagesForTopic_io_listed, H.
  now destruct (stored_messages t (csv_files entries)).
Qed.

(** C10, as amended: a record saved with an empty body, with a timestamp
    that holds no comma and no quote and with no line break in timestamp,
    topic or sender, into a directory where the log file of the user is
    absent or ends where a line ends, is saved with success; the line
    that is written ends in an empty quoted field; the line is decoded to
    three fields; and every query returns after the save what it returned
    before it.  The user name holds no path separator, so that the file
    is an entry of the directory. *)
Theorem empty_body_is_never_returned (Date : jsstring -> option Z)
    (entries : listing) (b : save_body) :
  or_undefined (payload b) = [] ->
  plain (template (Codec.timestamp b)) ->
  no_line_break (template (Codec.timestamp b)) ->
  no_line_break (or_undefined (Codec.topic b)) ->
  no_line_break (written_sender b) ->
  plain_name (template (Codec.username b)) = true ->
  appendable (fileName b) entries ->
  exists entries' before,
    save (Some entries) b = (Some entries', json_saved) /\
    find_entry (fileName b) entries' =
      Some (File (before ++ [COMMA; DQ; DQ; NL])) /\
    length (parseCSVLine (record_text b)) = 3%nat /\
    forall t limit,
      getMessagesForTopic Date (Some entries') t limit =
      getMessagesForTopic Date (Some entries) t limit.
Proof.
  intros Hp Hts Hnts Hnt Hns _ Happ.
  assert (length (parseCSVLine (record_text b)) = 3%nat) as Hlen.
  { rewrite parse_record_text, Hp by assumption. reflexivity. }
  assert (forall t, scan_line t (record_text b) = ([], [])) as Hscan.
  { intros t. apply scan_line_short. rewrite Hlen. lia. }
  assert (no_line_break (record_text b)) as Hnl.
  { apply no_line_break_record_text; try assumption.
    rewrite Hp. constructor. }
  assert (exists pre, save_line b = pre ++ [COMMA; DQ; DQ; NL]) as [pre Hpre].
  { exists (template (Codec.timestamp b) ++ COMMA :: quoted (safeTopic b)
              ++ COMMA :: quoted (safeSender b)).
    unfold save_line, record_text, safePayload. rewrite Hp. simpl.
    unfold quoted. repeat (rewrite <- app_assoc; simpl). reflexivity. }
  unfold appendable in Happ. unfold save.
  destruct (find_entry (fileName b) entries) as [[content|]|] eqn:Hfind.
  - exists (append_to (fileName b) (save_line b) entries), (content ++ pre).
    split; [reflexivity|]. split; [|split; [exact Hlen|]].
    + rewrite (find_entry_append_to _ _ _ _ Hfind), Hpre.
      now rewrite app_assoc.
    + intros t limit. apply getMessagesForTopic_stored.
      eapply stored_messages_append_to; [exact Hfind|].
      now apply file_messages_append.
  - contradiction.
  - exists (entries ++ [(fileName b, File (header ++ save_line b))]),
      (header ++ pre).
    split; [reflexivity|]. split; [|split; [exact Hlen|]].
    + rewrite find_entry_snoc by assumption. now rewrite Hpre, app_assoc.
    + intros t limit. apply getMessagesForTopic_stored.
      unfold csv_files. rewrite filter_app, filter_cons, filter_nil.
      destruct (decide _); [|now rewrite app_nil_r].
      apply stored_messages_snoc. now apply file_messages_new.
Qed.

Lemma appendable_by_last name entries :
  match find_entry name entries with
  | Some (File content) => content = [] \/ last content = Some NL
  | Some Directory => False
  | None => True
  end ->
  appendable name entries.
Proof.
  unfold appendable.
  destruct (find_entry name entries) as [[content|]|]; try tauto.
  intros [->|H]; [now left|]. right.
  destruct content as [|c content _] using rev_ind; [discriminate|].
  rewrite last_snoc in H. injection H as ->. now exists content.
Qed.

Lemma empty_body_is_never_returned_witness :
  exists entries' before,
    save shuffled_store silent = (Some entries', json_saved) /\
    find_entry (fileName silent) entries' =
      Some (File (before ++ [COMMA; DQ; DQ; NL])) /\
    length (parseCSVLine (record_text silent)) = 3%nat /\
    forall t limit,
      getMessagesForTopic sample_dates (Some entries') t limit =
      getMessagesForTopic sample_dates shuffled_store t limit.
Proof.
  apply (empty_body_is_never_returned sample_dates
           (default [] shuffled_store) silent).
  - reflexivity.
  - repeat constructor; discriminate.
  - repeat constructor; discriminate.
  - repeat constructor; discriminate.
  - repeat constructor; discriminate.
  - reflexivity.
  - apply appendable_by_last. vm_compute. now right.
Defined.

(** C10, as stated, fails: with a comma in the timestamp the line of a
    record with an empty body is decoded to four fields, and a query for
    the second of them returns a message made of that line. *)
Lemma empty_body_with_comma_in_timestamp :
  or_undefined (payload silent_local) = [] /\
  parseCSVLine (record_text silent_local) =
    [lit "1/15/2024"; lit "10:30:00 AM"; lit "weather"; lit "alice"] /\
  getMessagesForTopic sample_dates (fst (save (Some []) silent_local))
    (lit "10:30:00 AM") 10 =
    [ {| timestamp := lit "1/15/2024"; topic := lit "10:30:00 AM";
         username := lit "weather"; message_text := lit "alice";
         sender := lit "weather" |} ].
Proof. repeat split; reflexivity. Qed.

End EmptyBodyTheorems.

(** * The registry of topics *)

Section RegistryFacts.
Import Registry.

Lemma accounted_not_proto t : accounted t -> t <> proto.
Proof.
  intros [_ Hn] ->. apply Hn. unfold prototype_names, proto.
  do 10 apply list_elem_of_further. apply list_elem_of_here.
Qed.

Lemma get_accounted counts t :
  accounted t ->
  get counts t = match counts !! t with Some v => v | None => undefined end.
Proof.
  intros Ht. unfold get.
  rewrite bool_decide_eq_false_2 by now apply accounted_not_proto.
  destruct (counts !! t); [reflexivity|].
  destruct Ht as [_ Hn]. now rewrite bool_decide_eq_false_2.
Qed.

Lemma set_accounted counts t v :
  accounted t -> set counts t v = <[t := v]> counts.
Proof.
  intros Ht. unfold set.
  now rewrite bool_decide_eq_false_2 by now apply accounted_not_proto.
Qed.

(** The number of clients joined to [u] when a socket is added. *)
Lemma joined_to_insert u id j (s : gmap N (option jsstring)) :
  s !! id = None ->
  joined_to u (<[id := j]> s) =
    (joined_to u s + if decide (j = Some u) then 1 else 0)%nat.
Proof.
  intros Hid. unfold joined_to. rewrite map_filter_insert. simpl.
  destruct (decide (j = Some u)) as [Hj|Hj].
  - rewrite map_size_insert_None; [lia|].
    apply map_lookup_filter_None_2. now left.
  - rewrite delete_id by assumption. lia.
Qed.

Lemma joined_to_delete u id j (s : gmap N (option jsstring)) :
  s !! id = Some j ->
  joined_to u s =
    (joined_to u (delete id s) + if decide (j = Some u) then 1 else 0)%nat.
Proof.
  intros Hid. rewrite <- (joined_to_insert u id j (delete id s)).
  - now rewrite insert_delete_id.
  - apply lookup_delete_eq.
Qed.

Lemma consistent_initial : consistent initial.
Proof.
  split; simpl.
  - intros t v H. now rewrite lookup_empty in H.
  - intros id t H. now rewrite lookup_empty in H.
  - intros t _. unfold joined_to. now rewrite map_filter_empty.
Qed.

Lemma connection_consistent id st :
  consistent st -> consistent (connection id st).
Proof.
  intros [Hc Hj Ha]. unfold connection.
  destruct (sockets st !! id) eqn:Hid; [now split|].
  split; simpl.
  - intros t v H. rewrite joined_to_insert by assumption.
    rewrite decide_False by discriminate. rewrite Nat.add_0_r. now apply Hc.
  - intros id' t. rewrite lookup_insert_Some.
    intros [[_ [=]] | [_ H]]. now apply Hj in H.
  - intros t H. rewrite joined_to_insert by assumption.
    rewrite decide_False by discriminate. rewrite Nat.add_0_r. now apply Ha.
Qed.

(** The decrement of [leave] accounts for the socket leaving. *)
Lemma leave_consistent id j st :
  consistent st ->
  sockets st !! id = Some j ->
  consistent {| userCounts := fst (leave j (userCounts st));
                sockets := delete id (sockets st) |} /\
  snd (leave j (userCounts st)) =
    match j with
    | Some old => [(old, num (Z.of_nat (joined_to old (sockets st)) - 1))]
    | None => []
    end.
Proof.
  intros [Hc Hj Ha] Hid.
  assert (forall id' t, delete id (sockets st) !! id' = Some (Some t) ->
            accounted t) as Hj'.
  { intros id' t H. apply lookup_delete_Some in H as [_ H]. eapply Hj, H. }
  destruct j as [old|]; simpl.
  - pose proof (Hj _ _ Hid) as Hold.
    pose proof (joined_to_delete old _ _ _ Hid) as Hn.
    rewrite decide_True in Hn by reflexivity.
    destruct (userCounts st !! old) as [v|] eqn:Hv.
    2:{ apply Ha in Hv. lia. }
    destruct (Hc _ _ Hv) as [_ ->].
    assert (truthy_str old = true) as ->.
    { destruct Hold as [Hne _]. now destruct old. }
    rewrite (get_accounted _ _ Hold), Hv. simpl.
    replace (Z.of_nat (joined_to old (sockets st)) =? 0)%Z with false
      by (symmetry; apply Z.eqb_neq; lia).
    simpl. rewrite !(set_accounted _ _ _ Hold).
    rewrite (get_accounted _ _ Hold), lookup_insert_eq.
    replace (Z.max 0 (Z.of_nat (joined_to old (sockets st)) - 1))
      with (Z.of_nat (joined_to old (sockets st)) - 1)%Z by lia.
    split; [|reflexivity]. split; simpl.
    + intros t v. rewrite lookup_insert_Some.
      intros [[<- <-] | [Hne H]].
      * split; [assumption|]. f_equal. lia.
      * destruct (Hc _ _ H) as [Ht ->]. split; [assumption|].
        rewrite (joined_to_delete t _ _ _ Hid).
        rewrite decide_False by congruence. f_equal. lia.
    + exact Hj'.
    + intros t. rewrite lookup_insert_None. intros [H Hne].
      apply Ha in H. rewrite (joined_to_delete t _ _ _ Hid) in H. lia.
  - split; [|reflexivity]. split; simpl.
    + intros t v H. destruct (Hc _ _ H) as [Ht ->]. split; [assumption|].
      rewrite (joined_to_delete t _ _ _ Hid).
      rewrite decide_False by discriminate. f_equal. lia.
    + exact Hj'.
    + intros t H. apply Ha in H.
      rewrite (joined_to_delete t _ _ _ Hid) in H. lia.
Qed.

(** The increment of [joinTopic] accounts for the socket joining. *)
Lemma join_consistent id t counts (s : gmap N (option jsstring)) :
  consistent {| userCounts := counts; sockets := s |} ->
  s !! id = None ->
  accounted t ->
  let counts' := set counts t (incremented (get counts t)) in
  consistent {| userCounts := counts'; sockets := <[id := Some t]> s |} /\
  get counts' t = num (Z.of_nat (joined_to t s) + 1).
Proof.
  intros [Hc Hj Ha] Hid Ht counts'. simpl in *.
  assert (incremented (get counts t) = num (Z.of_nat (joined_to t s) + 1))
    as Hinc.
  { rewrite (get_accounted _ _ Ht).
    destruct (counts !! t) as [v|] eqn:Hv.
    - destruct (Hc _ _ Hv) as [_ ->]. unfold incremented. simpl.
      destruct (Z.eqb_spec (Z.of_nat (joined_to t s)) 0) as [->|_];
        reflexivity.
    - rewrite (Ha _ Hv). reflexivity. }
  subst counts'. rewrite Hinc, (set_accounted _ _ _ Ht).
  rewrite (get_accounted _ _ Ht), lookup_insert_eq.
  split; [|reflexivity]. split; simpl.
  - intros u v. rewrite lookup_insert_Some, joined_to_insert by assumption.
    intros [[<- <-] | [Hne H]].
    + split; [assumption|]. rewrite decide_True by reflexivity.
      f_equal. lia.
    + destruct (Hc _ _ H) as [Hu ->]. split; [assumption|].
      rewrite decide_False by congruence. f_equal. lia.
  - intros id' u. rewrite lookup_insert_Some.
    intros [[_ [= <-]] | [_ H]]; [assumption|]. eapply Hj, H.
  - intros u. rewrite lookup_insert_None, joined_to_insert by assumption.
    intros [H Hne]. rewrite decide_False by congruence.
    rewrite (Ha _ H). reflexivity.
Qed.

Lemma joinTopic_consistent id t st :
  consistent st -> accounted t -> consistent (fst (joinTopic id t st)).
Proof.
  intros Hst Ht. unfold joinTopic.
  destruct (sockets st !! id) as [j|] eqn:Hid; [|exact Hst].
  destruct (leave_consistent id j st Hst Hid) as [Hl _].
  destruct (leave j (userCounts st)) as [counts1 out1]. simpl in *.
  pose proof (join_consistent id t counts1 _ Hl (lookup_delete_eq _ _) Ht)
    as [H _].
  now rewrite insert_delete_eq in H.
Qed.

Lemma disconnect_consistent id st :
  consistent st -> consistent (fst (disconnect id st)).
Proof.
  intros Hst. unfold disconnect.
  destruct (sockets st !! id) as [j|] eqn:Hid; [|exact Hst].
  destruct (leave_consistent id j st Hst Hid) as [Hl _].
  now destruct (leave j (userCounts st)).
Qed.

Lemma step_consistent st e :
  consistent st -> accounted_event e -> consistent (fst (step st e)).
Proof.
  intros Hst He. destruct e as [id|id t|id]; simpl.
  - now apply connection_consistent.
  - now apply joinTopic_consistent.
  - now apply disconnect_consistent.
Qed.

Lemma run_cons st e events :
  run st (e :: events) =
    (fst (run (fst (step st e)) events),
     snd (step st e) ++ snd (run (fst (step st e)) events)).
Proof.
  cbn [run]. destruct (step st e) as [st1 out1]. cbn [fst snd].
  now destruct (run st1 events).
Qed.

(** On accounted topics the handlers keep every count equal to the
    number of clients joined to its topic. *)
Lemma run_consistent events : forall st,
  consistent st -> Forall accounted_event events ->
  consistent (fst (run st events)).
Proof.
  induction events as [|e events IH]; intros st Hst Hev; [exact Hst|].
  rewrite run_cons. simpl. inversion Hev; subst.
  apply IH; [|assumption]. now apply step_consistent.
Qed.

Lemma run_counts_clients events :
  Forall accounted_event events ->
  counts_clients (fst (run initial events)).
Proof.
  intros Hev t v H.
  pose proof (run_consistent events initial consistent_initial Hev) as Hc.
  now destruct (counts_ok _ Hc _ _ H).
Qed.

(** On an accounted topic a join of the topic already joined sends two
    notifications, the decrement and the increment, and leaves the
    count as it was. *)
Lemma rejoin_consistent id t st :
  consistent st ->
  sockets st !! id = Some (Some t) ->
  let n := Z.of_nat (joined_to t (sockets st)) in
  get (userCounts st) t = num n /\
  snd (joinTopic id t st) = [(t, num (n - 1)); (t, num n)] /\
  get (userCounts (fst (joinTopic id t st))) t = num n.
Proof.
  intros Hst Hid n.
  pose proof (joined_ok _ Hst _ _ Hid) as Ht.
  pose proof (joined_to_delete t _ _ _ Hid) as Hn.
  rewrite decide_True in Hn by reflexivity.
  assert (get (userCounts st) t = num n) as Hget.
  { rewrite (get_accounted _ _ Ht).
    destruct (userCounts st !! t) as [v|] eqn:Hv.
    - now destruct (counts_ok _ Hst _ _ Hv) as [_ ->].
    - apply (absent_ok _ Hst) in Hv. lia. }
  split; [exact Hget|].
  unfold joinTopic. rewrite Hid.
  destruct (leave_consistent id _ st Hst Hid) as [Hl Hout].
  destruct (leave (Some t) (userCounts st)) as [counts1 out1].
  simpl in Hl, Hout. subst out1.
  pose proof (join_consistent id t counts1 _ Hl (lookup_delete_eq _ _) Ht)
    as [_ Hnew].
  simpl in *. rewrite Hnew.
  replace (Z.of_nat (joined_to t (delete id (sockets st))) + 1)%Z with n
    by (subst n; lia).
  split; reflexivity.
Qed.

End RegistryFacts.

Section RegistryTheorems.
Import Registry.

(** C2: every count of the registry is to equal the number of connected
    clients joined to its topic.  The handlers miss it for the empty
    topic: one client connects, joins the empty topic and disconnects;
    [if (joinedTopic && ...)] reads the empty string as no topic, the
    count is not decremented, and the registry keeps a count of 1 for a
    topic that no connected client is joined to. *)
Theorem empty_topic_count_outlives_its_client :
  let st := fst (run initial [Connect 1; Join 1 []; Disconnect 1]) in
  sockets st !! 1%N = None /\
  joined_to [] (sockets st) = 0%nat /\
  userCounts st !! ([] : jsstring) = Some (num 1) /\
  ~ counts_clients st.
Proof.
  split; [reflexivity|]. split; [reflexivity|]. split; [reflexivity|].
  intros H. specialize (H [] (num 1) eq_refl). discriminate H.
Qed.

(** C5: a join of the topic already joined is to leave the count as it
    was and to send two notifications.  The handler misses it for the
    empty topic: [if (joinedTopic)] reads the empty string as no topic,
    the leave is passed over, the count goes from 1 to 2 with one client,
    and one notification is sent. *)
Theorem rejoin_of_empty_topic_is_counted_again :
  let st := fst (run initial [Connect 1; Join 1 []]) in
  sockets st !! 1%N = Some (Some []) /\
  get (userCounts st) [] = num 1 /\
  snd (joinTopic 1 [] st) = [([], num 2)] /\
  get (userCounts (fst (joinTopic 1 [] st))) [] = num 2.
Proof. repeat split; reflexivity. Qed.

End RegistryTheorems.

(** * Scenarios *)

Section Scenarios.
Import Codec LogStore Registry.

(** One record saved for alice is the one record a query of its topic
    returns. *)
Example saved_then_queried :
  getMessagesForTopic sample_dates
    (fst (save (Some []) (body_of "2024-01-01T00:00:00.000Z" "alice" "sunny")))
    (lit "weather") 10 =
  [message_of "2024-01-01T00:00:00.000Z" "alice" "sunny"].
Proof. reflexivity. Qed.

(** Three records saved out of order across two files come back in the
    order of their times, and the two latest with a limit of 2. *)
Example shuffled_then_queried :
  getMessagesForTopic sample_dates shuffled_store (lit "weather") 10 =
    [ message_of "2024-01-01T00:00:00.000Z" "bob" "one";
      message_of "2024-01-02T00:00:00.000Z" "alice" "two";
      message_of "2024-01-03T00:00:00.000Z" "alice" "three" ] /\
  getMessagesForTopic sample_dates shuffled_store (lit "weather") 2 =
    [ message_of "2024-01-02T00:00:00.000Z" "alice" "two";
      message_of "2024-01-03T00:00:00.000Z" "alice" "three" ].
Proof. split; reflexivity. Qed.

(** A limit parameter with a number in front runs with that number, and
    a negative one makes [slice] drop records from the front. *)
Example limit_with_a_number_in_front :
  limit_of_query (Some (lit "12abc")) = 12%Z /\
  limit_of_query (Some (lit "-1")) = (-1)%Z /\
  getMessagesForTopic sample_dates shuffled_store (lit "weather") (-1) =
    [ message_of "2024-01-02T00:00:00.000Z" "alice" "two";
      message_of "2024-01-03T00:00:00.000Z" "alice" "three" ].
Proof. repeat split; reflexivity. Qed.

(** Two clients on one topic, one of them joining it again and then
    moving on: the notifications carry the counts. *)
Example two_clients :
  snd (run initial
         [ Connect 1; Connect 2; Join 1 (lit "a"); Join 2 (lit "a");
           Join 1 (lit "a"); Join 1 (lit "b"); Disconnect 2 ]) =
  [ (lit "a", num 1); (lit "a", num 2); (lit "a", num 1); (lit "a", num 2);
    (lit "a", num 1); (lit "b", num 1); (lit "a", num 0) ].
Proof. reflexivity. Qed.

(** A topic named like a member of [Object.prototype] starts from that
    member, not from zero. *)
Example inherited_topic :
  snd (run initial [Connect 1; Join 1 (lit "constructor"); Disconnect 1]) =
  [ (lit "constructor", text (lit "constructor") 1);
    (lit "constructor", nan) ].
Proof. reflexivity. Qed.

End Scenarios.

(** * More on the tokenizer *)

Section TokenizerFacts.
Import Codec Shapes.

#[local] Arguments parse_loop : simpl never.

(** The five ways the loop of [parseCSVLine] takes a step, as a rule of
    induction. *)
Lemma parse_loop_cases
    (P : jsstring -> list jsstring -> jsstring -> bool -> Prop) :
  (forall result current q, P [] result current q) ->
  (forall rest result current,
     P rest result (current ++ [DQ]) true ->
     P (DQ :: DQ :: rest) result current true) ->
  (forall rest result current q,
     q = false \/ head rest <> Some DQ ->
     P rest result current (negb q) -> P (DQ :: rest) result current q) ->
  (forall rest result current,
     P rest (result ++ [trim current]) [] false ->
     P (COMMA :: rest) result current false) ->
  (forall c rest result current q,
     c <> DQ -> c <> COMMA \/ q = true ->
     P rest result (current ++ [c]) q -> P (c :: rest) result current q) ->
  forall line result current q, P line result current q.
Proof.
  intros Hnil Hesc Htog Hcom Hoth line.
  assert (forall n line, (length line <= n)%nat ->
            forall result current q, P line result current q) as H.
  { clear line. induction n as [|n IH]; intros line Hn result current q.
    - destruct line; [apply Hnil | simpl in Hn; lia].
    - destruct line as [|c rest]; [apply Hnil|]. simpl in Hn.
      destruct (N.eq_dec c DQ) as [->|Hc].
      + destruct q.
        * destruct rest as [|d rest'].
          -- apply Htog; [right; simpl; discriminate | apply IH; lia].
          -- destruct (N.eq_dec d DQ) as [->|Hd].
             ++ apply Hesc, IH. simpl in Hn. lia.
             ++ apply Htog; [right; simpl; congruence | apply IH; lia].
        * apply Htog; [now left | apply IH; lia].
      + destruct (N.eq_dec c COMMA) as [->|Hcm].
        * destruct q.
          -- apply Hoth; [assumption | now right | apply IH; lia].
          -- apply Hcom, IH. lia.
        * apply Hoth; [assumption | now left | apply IH; lia]. }
  now apply (H (length line)).
Qed.

Lemma parse_loop_kept c rest result current q :
  c <> DQ -> c <> COMMA \/ q = true ->
  parse_loop (c :: rest) result current q =
  parse_loop rest result (current ++ [c]) q.
Proof.
  intros Hc Hk. rewrite parse_loop_other by assumption.
  destruct Hk as [Hk | ->]; [|now rewrite andb_false_r].
  apply N.eqb_neq in Hk. now rewrite Hk.
Qed.

Lemma trim_start_idem s : trim_start (trim_start s) = trim_start s.
Proof.
  induction s as [|c s IH]; [reflexivity|]. simpl.
  destruct (is_white_space c) eqn:E; [exact IH|]. simpl. now rewrite E.
Qed.

Lemma trim_start_suffix s : exists pre, s = pre ++ trim_start s.
Proof.
  induction s as [|c s [pre IH]]; [now exists []|]. simpl.
  destruct (is_white_space c).
  - exists (c :: pre). simpl. now f_equal.
  - now exists [].
Qed.

(** Trimming what is trimmed changes nothing. *)
Lemma trim_idem s : trim (trim s) = trim s.
Proof.
  unfold trim.
  destruct (trim_start (rev (trim_start s))) as [|d b] eqn:Eb;
    [reflexivity|].
  assert (trim_start (rev (d :: b)) = rev (d :: b)) as ->.
  { destruct (trim_start_suffix (rev (trim_start s))) as [pre Hpre].
    rewrite Eb in Hpre. apply (f_equal (@rev N)) in Hpre.
    rewrite rev_involutive, rev_app_distr in Hpre.
    destruct (rev (d :: b)) as [|c r] eqn:Er.
    - apply (f_equal (@length N)) in Er. rewrite length_rev in Er.
      discriminate Er.
    - simpl in Hpre. apply trim_start_head in Hpre. simpl. now rewrite Hpre. }
  rewrite rev_involutive, <- Eb. now rewrite trim_start_idem.
Qed.

End TokenizerFacts.

Section TokenizerTheorems.
Import Codec Shapes.

#[local] Arguments parse_loop : simpl never.

Lemma parseCSVLine_trimmed (line : jsstring) :
  Forall trimmed (parseCSVLine line).
Proof.
  unfold parseCSVLine.
  assert (Forall trimmed ([] : list jsstring)) as H0 by constructor.
  revert H0. generalize ([] : list jsstring) at 1 3 as result.
  generalize ([] : jsstring) as current. generalize false as q.
  intros q current result. revert line result current q.
  apply (parse_loop_cases (fun line result current q =>
    Forall trimmed result ->
    Forall trimmed (parse_loop line result current q))).
  - intros result current q H. rewrite parse_loop_end.
    destruct (truthy_str current); [|exact H].
    apply Forall_app. split; [exact H|].
    repeat constructor. apply trim_idem.
  - intros rest result current IH H. rewrite parse_loop_escaped. now apply IH.
  - intros rest result current q Hq IH H.
    rewrite parse_loop_toggle by exact Hq. now apply IH.
  - intros rest result current IH H. rewrite parse_loop_comma. apply IH.
    apply Forall_app. split; [exact H|]. repeat constructor. apply trim_idem.
  - intros c rest result current q Hc Hk IH H.
    rewrite parse_loop_kept by assumption. now apply IH.
Qed.

(** X1: every field that [parseCSVLine] returns is trimmed: it has no
    white space at either end, whatever the line. *)
Theorem fields_are_trimmed (line : jsstring) :
  Forall trimmed (parseCSVLine line).
Proof. apply parseCSVLine_trimmed. Qed.

(** X2: a line has at most one field more than it has commas. *)
Theorem fields_bounded_by_commas (line : jsstring) :
  (length (parseCSVLine line) <= S (commas line))%nat.
Proof.
  unfold parseCSVLine.
  enough (forall result current q,
    (length (parse_loop line result current q)
     <= length result + S (commas line))%nat) as H by apply (H [] [] false).
  revert line.
  apply (parse_loop_cases (fun line result current q =>
    (length (parse_loop line result current q)
     <= length result + S (commas line))%nat)).
  - intros result current q. rewrite parse_loop_end.
    destruct (truthy_str current); rewrite ?length_app; simpl; lia.
  - intros rest result current IH. rewrite parse_loop_escaped.
    simpl commas. exact IH.
  - intros rest result current q Hq IH.
    rewrite parse_loop_toggle by exact Hq. simpl commas. exact IH.
  - intros rest result current IH. rewrite parse_loop_comma.
    simpl commas. rewrite length_app in IH. simpl in IH. lia.
  - intros c rest result current q Hc Hk IH.
    rewrite parse_loop_kept by assumption. simpl commas.
    destruct (N.eqb c COMMA); lia.
Qed.

Lemma parse_loop_unquoted fields last result :
  Forall plain fields -> plain last ->
  parse_loop (unquoted_line fields last) result [] false =
    result ++ map trim fields
      ++ (if truthy_str last then [trim last] else []).
Proof.
  intros Hf Hl. revert result. unfold unquoted_line.
  induction Hf as [|f fields Hp _ IH]; intros result; simpl.
  - replace last with (last ++ []) at 1 by apply app_nil_r.
    rewrite parse_loop_plain, parse_loop_end by assumption. simpl.
    destruct (truthy_str last); [reflexivity | now rewrite app_nil_r].
  - rewrite <- !app_assoc. simpl.
    rewrite parse_loop_plain, parse_loop_comma by assumption. simpl.
    rewrite IH, <- app_assoc. reflexivity.
Qed.

(** X3: a line of fields without quote and without comma, separated by
    commas, is split at its commas: each field comes back trimmed, in
    order, and an empty last field is dropped. *)
Theorem unquoted_line_splits (fields : list jsstring) (last : jsstring) :
  Forall plain fields -> plain last ->
  parseCSVLine (unquoted_line fields last) =
    map trim fields ++ (if truthy_str last then [trim last] else []).
Proof.
  intros Hf Hl. unfold parseCSVLine.
  now rewrite parse_loop_unquoted.
Qed.

Lemma unquoted_line_splits_witness :
  parseCSVLine (unquoted_line [lit "2024"; lit " a b "] (lit "c")) =
    [lit "2024"; lit "a b"; lit "c"].
Proof.
  apply (unquoted_line_splits [lit "2024"; lit " a b "] (lit "c")).
  - repeat constructor; discriminate.
  - repeat constructor; discriminate.
Defined.

(** X4: a line of fields written as [/save] writes them, each wrapped
    in quotes with its quotes doubled, is read back field by field,
    whatever the fields hold (commas, quotes, line breaks): each comes
    back trimmed, in order, and an empty last field is dropped. *)
Theorem quoted_line_round_trip (fields : list jsstring) (last : jsstring) :
  parseCSVLine (quoted_line fields last) =
    map trim fields ++ (if truthy_str last then [trim last] else []).
Proof.
  unfold parseCSVLine.
  enough (forall result,
    parse_loop (quoted_line fields last) result [] false =
    result ++ map trim fields
      ++ (if truthy_str last then [trim last] else [])) as H
    by apply (H []).
  unfold quoted_line. induction fields as [|f fields IH]; intros result.
  - simpl concat. simpl app.
    replace (quoted (double_quotes last))
      with (quoted (double_quotes last) ++ []) by apply app_nil_r.
    rewrite parse_loop_field, parse_loop_end by (simpl; discriminate).
    simpl. destruct (truthy_str last); [reflexivity | now rewrite app_nil_r].
  - cbn [map concat]. rewrite <- !app_assoc.
    rewrite parse_loop_field by (now simpl).
    change (parse_loop ([COMMA] ++ ?r) ?a ?b ?c)
      with (parse_loop (COMMA :: r) a b c).
    rewrite parse_loop_comma. cbn [app map].
    rewrite IH, <- app_assoc. reflexivity.
Qed.

Lemma ends_in_quotes_escaped rest :
  ends_in_quotes (DQ :: DQ :: rest) true = ends_in_quotes rest true.
Proof. reflexivity. Qed.

Lemma ends_in_quotes_close rest :
  head rest <> Some DQ ->
  ends_in_quotes (DQ :: rest) true = ends_in_quotes rest false.
Proof.
  intros H. destruct rest as [|d rest]; [reflexivity|]. simpl.
  destruct (N.eqb_spec d DQ) as [->|_]; [now elim H | reflexivity].
Qed.

#[local] Arguments ends_in_quotes : simpl never.

Lemma ends_in_quotes_doubled s rest :
  head rest <> Some DQ ->
  ends_in_quotes (double_quotes s ++ DQ :: rest) true =
  ends_in_quotes rest false.
Proof.
  intros Hrest. induction s as [|c s IH]; simpl.
  - now apply ends_in_quotes_close.
  - destruct (N.eqb_spec c DQ) as [->|Hc]; simpl.
    + now rewrite ends_in_quotes_escaped.
    + now rewrite ends_in_quotes_other.
Qed.

Lemma ends_in_quotes_quoted s rest :
  head rest <> Some DQ ->
  ends_in_quotes (quoted (double_quotes s) ++ rest) false =
  ends_in_quotes rest false.
Proof.
  intros Hrest. unfold quoted.
  rewrite <- app_comm_cons, ends_in_quotes_open, <- app_assoc.
  now apply ends_in_quotes_doubled.
Qed.

Lemma record_text_app b tl :
  record_text b ++ tl =
  template (timestamp b) ++ COMMA :: (quoted (safeTopic b) ++ COMMA ::
    (quoted (safeSender b) ++ COMMA :: (quoted (safePayload b) ++ tl))).
Proof.
  unfold record_text.
  repeat (rewrite <- app_assoc || rewrite <- app_comm_cons). reflexivity.
Qed.

(** X5: the line that [/save] writes, for a timestamp without comma and
    quote, never ends inside a quote: every quote it opens is closed,
    whatever topic, sender and body hold. *)
Theorem saved_line_closes_its_quotes (b : save_body) :
  plain (template (timestamp b)) ->
  unterminated_quote (record_text b) = false /\
  unterminated_quote (save_line b) = false.
Proof.
  intros Hts.
  assert (forall tl, head tl <> Some DQ ->
    ends_in_quotes (record_text b ++ tl) false = ends_in_quotes tl false)
    as H.
  { intros tl Htl. rewrite record_text_app.
    unfold safeTopic, safeSender, safePayload.
    rewrite ends_in_quotes_plain by assumption.
    rewrite ends_in_quotes_other by discriminate.
    rewrite ends_in_quotes_quoted by (now simpl).
    rewrite ends_in_quotes_other by discriminate.
    rewrite ends_in_quotes_quoted by (now simpl).
    rewrite ends_in_quotes_other by discriminate.
    now rewrite ends_in_quotes_quoted. }
  unfold unterminated_quote, save_line. split.
  - rewrite <- (app_nil_r (record_text b)), H by (simpl; discriminate).
    reflexivity.
  - rewrite H by (simpl; discriminate). reflexivity.
Qed.

Lemma saved_line_closes_its_quotes_witness :
  unterminated_quote (record_text quoting) = false /\
  unterminated_quote (save_line quoting) = false.
Proof.
  apply (saved_line_closes_its_quotes quoting).
  repeat constructor; discriminate.
Defined.

End TokenizerTheorems.

(** * More on the query *)

Section QueryFacts.
Import Codec LogStore Shapes.

Lemma scan_line_shaped t line : Forall (well_shaped t) (fst (scan_line t line)).
Proof.
  unfold scan_line, try_parseCSVLine.
  destruct (truthy_str (trim line)); [|constructor].
  pose proof (parseCSVLine_trimmed line) as Ht.
  destruct (parseCSVLine line) as [|f0 [|f1 [|f2 [|f3 fs]]]];
    try constructor.
  destruct (bool_decide_reflect (f1 = t)); simpl; [|constructor].
  inversion Ht as [|? ? H0 Ht1]; subst.
  inversion Ht1 as [|? ? H1 Ht2]; subst.
  inversion Ht2 as [|? ? H2 Ht3]; subst.
  inversion Ht3 as [|? ? H3 _]; subst.
  repeat constructor; assumption.
Qed.

Lemma scan_lines_shaped t lines :
  Forall (well_shaped t) (fst (scan_lines t lines)).
Proof.
  induction lines as [|line lines IH]; [constructor|].
  rewrite scan_lines_cons. simpl.
  apply Forall_app. split; [apply scan_line_shaped | exact IH].
Qed.

Lemma stored_messages_shaped t files l :
  stored_messages t files = Normal l -> Forall (well_shaped t) l.
Proof.
  revert l. induction files as [|[name [content|]] files IH];
    intros l; simpl.
  - intros [= <-]. constructor.
  - destruct (stored_messages t files) as [ms|]; [|discriminate].
    intros [= <-]. apply Forall_app. split; [apply scan_lines_shaped|].
    now apply IH.
  - discriminate.
Qed.

Lemma stored_messages_app t a b :
  stored_messages t (a ++ b) =
    match stored_messages t a, stored_messages t b with
    | Normal x, Normal y => Normal (x ++ y)
    | _, _ => Throw
    end.
Proof.
  induction a as [|[name [content|]] a IH]; simpl.
  - now destruct (stored_messages t b).
  - rewrite IH. destruct (stored_messages t a); [|reflexivity].
    destruct (stored_messages t b); [|reflexivity].
    now rewrite app_assoc.
  - reflexivity.
Qed.

Lemma slice_is_drop {A} (a : list A) start :
  exists k, slice a start = drop k a.
Proof. unfold slice. now eexists. Qed.

Variable Date : jsstring -> option Z.

(** The query, from what the files hold. *)
Lemma getMessagesForTopic_cases st t limit :
  getMessagesForTopic Date st t limit =
    match st with
    | None => []
    | Some entries =>
        match stored_messages t (csv_files entries) with
        | Normal ms => slice (sort (compare_timestamps Date) ms) (- limit)
        | Throw => []
        end
    end.
Proof.
  unfold getMessagesForTopic. destruct st as [entries|]; [|reflexivity].
  rewrite getMessagesForTopic_io_listed.
  now destruct (stored_messages t (csv_files entries)).
Qed.

Lemma getMessagesForTopic_length st t limit :
  (1 <= limit)%Z ->
  (length (getMessagesForTopic Date st t limit) <= Z.to_nat limit)%nat.
Proof.
  intros Hl. rewrite getMessagesForTopic_cases.
  destruct st as [entries|]; [|simpl; lia].
  destruct (stored_messages t (csv_files entries)) as [ms|]; [|simpl; lia].
  rewrite slice_last, length_drop by assumption. lia.
Qed.

(** An insertion that finds the list in order puts the element in
    front. *)
Lemma sort_in_order (ms : list message) :
  Sorted (in_order Date) ms -> sort (compare_timestamps Date) ms = ms.
Proof.
  induction 1 as [|m ms Hs IH Hd]; [reflexivity|].
  simpl. rewrite IH. destruct Hd as [|m' ms' Hm]; [reflexivity|].
  simpl. unfold not_after, compare_timestamps. unfold in_order in Hm.
  destruct (Date (timestamp m)), (Date (timestamp m')); try reflexivity.
  destruct (Z.leb_spec (z - z0) 0); [reflexivity | lia].
Qed.

End QueryFacts.

Section QueryExtras.
Import Codec LogStore Shapes.

(** X6: every message a query returns has the topic that was asked for,
    the same text as sender and as user name, and a timestamp, a user
    name and a text without white space at either end, whatever the
    files hold and whatever the limit is. *)
Theorem returned_messages_are_well_shaped (Date : jsstring -> option Z)
    (st : storage) (t : jsstring) (limit : Z) :
  Forall (well_shaped t) (getMessagesForTopic Date st t limit).
Proof.
  rewrite getMessagesForTopic_cases.
  destruct st as [entries|]; [|constructor].
  destruct (stored_messages t (csv_files entries)) as [ms|] eqn:E;
    [|constructor].
  destruct (slice_is_drop (sort (compare_timestamps Date) ms) (- limit))
    as [k ->].
  apply Forall_drop.
  eapply Permutation_Forall; [symmetry; apply sort_perm|].
  eapply stored_messages_shaped, E.
Qed.

(** X7: with a limit of 1 or more a query returns at most [limit]
    messages, whatever the files hold. *)
Theorem query_returns_at_most_limit (Date : jsstring -> option Z)
    (st : storage) (t : jsstring) (limit : Z) :
  (1 <= limit)%Z ->
  (length (getMessagesForTopic Date st t limit) <= Z.to_nat limit)%nat.
Proof. apply getMessagesForTopic_length. Qed.

Lemma query_returns_at_most_limit_witness :
  (length (getMessagesForTopic sample_dates shuffled_store (lit "weather") 2)
   <= Z.to_nat 2)%nat.
Proof.
  apply (query_returns_at_most_limit sample_dates shuffled_store
           (lit "weather") 2).
  lia.
Defined.

(** X8: with a limit of zero or less, [slice(-limit)] does not keep the
    last records: when every record of the topic has a timestamp that
    is a date, a query returns the records of the topic sorted
    ascending by time without the first [-limit] of them, and all of
    them for the limit 0. *)
Theorem query_with_limit_not_above_zero (Date : jsstring -> option Z)
    (entries : listing) (t : jsstring) (limit : Z)
    (messages : list message) :
  stored_messages t (csv_files entries) = Normal messages ->
  Forall (fun m => is_Some (Date (timestamp m))) messages ->
  (limit <= 0)%Z ->
  let sorted := sort (compare_timestamps Date) messages in
  Permutation sorted messages /\
  StronglySorted (not_later Date) sorted /\
  getMessagesForTopic Date (Some entries) t limit =
    drop (Z.to_nat (- limit)) sorted.
Proof.
  intros Hst Hdated Hl sorted. subst sorted.
  split; [apply sort_perm|]. split.
  { apply Sorted_StronglySorted; [apply not_later_trans|].
    eapply sort_Sorted; [|exact Hdated].
    apply compare_timestamps_decides. }
  rewrite getMessagesForTopic_cases, Hst. unfold slice.
  destruct (Z.ltb_spec (- limit) 0); [lia|].
  destruct (Z.min_spec (- limit)
              (Z.of_nat (length (sort (compare_timestamps Date) messages))))
    as [[_ ->] | [Hge ->]]; [reflexivity|].
  rewrite Nat2Z.id, drop_all. symmetry. apply drop_ge. lia.
Qed.

Lemma query_with_limit_not_above_zero_witness :
  let messages :=
    [ message_of "2024-01-03T00:00:00.000Z" "alice" "three";
      message_of "2024-01-02T00:00:00.000Z" "alice" "two";
      message_of "2024-01-01T00:00:00.000Z" "bob" "one" ] in
  let sorted := sort (compare_timestamps sample_dates) messages in
  Permutation sorted messages /\
  StronglySorted (not_later sample_dates) sorted /\
  getMessagesForTopic sample_dates (Some (default [] shuffled_store))
    (lit "weather") (-1) =
  drop (Z.to_nat (- (-1))) sorted.
Proof.
  apply (query_with_limit_not_above_zero sample_dates
           (default [] shuffled_store) (lit "weather") (-1)).
  - reflexivity.
  - repeat apply Forall_cons_2; try apply List.Forall_nil;
      eexists; reflexivity.
  - lia.
Defined.

(** X9: the records come back as the files hold them when the files
    hold them in order: if each record of the topic is not later than
    the one scanned after it, or one of the two has a timestamp that is
    no date, a query returns them in the order of the scan, cut by the
    limit. *)
Theorem records_in_order_keep_their_order (Date : jsstring -> option Z)
    (entries : listing) (t : jsstring) (limit : Z)
    (messages : list message) :
  stored_messages t (csv_files entries) = Normal messages ->
  Sorted (in_order Date) messages ->
  getMessagesForTopic Date (Some entries) t limit = slice messages (- limit).
Proof.
  intros Hst Hs. rewrite getMessagesForTopic_cases, Hst.
  now rewrite sort_in_order.
Qed.

Lemma records_in_order_keep_their_order_witness :
  getMessagesForTopic sample_dates (Some (default [] undated_store))
    (lit "weather") 10 =
  slice [ message_of "2024-01-02T00:00:00.000Z" "alice" "sunny";
          message_of "someday" "alice" "rain" ] (- 10).
Proof.
  apply (records_in_order_keep_their_order sample_dates
           (default [] undated_store) (lit "weather") 10).
  - reflexivity.
  - repeat constructor.
Defined.

(** X10: a query writes no warning to the console, whatever the files
    hold: the scan has no line to warn about, and the endpoint adds
    none. *)
Theorem query_never_warns (Date : jsstring -> option Z) (st : storage)
    (t : jsstring) (limit : Z) (limit_param : option jsstring) :
  existsb is_warning (snd (getMessagesForTopic_io Date st t limit)) = false /\
  existsb is_warning (snd (get_messages_io Date st t limit_param)) = false.
Proof.
  assert (forall l,
    existsb is_warning (snd (getMessagesForTopic_io Date st t l)) = false)
    as H.
  { intros l. destruct st as [entries|]; [|reflexivity].
    rewrite getMessagesForTopic_io_listed.
    now destruct (stored_messages t (csv_files entries)). }
  split; [apply H|]. unfold get_messages_io.
  specialize (H (limit_of_query limit_param)).
  destruct (getMessagesForTopic_io Date st t (limit_of_query limit_param)).
  exact H.
Qed.

End QueryExtras.

Section FileExtras.
Import Codec LogStore Shapes.

Lemma csv_files_middle e1 name (x : entry) e2 :
  csv_files (e1 ++ (name, x) :: e2) =
    csv_files e1
      ++ (if decide (endsWith name (lit ".csv") = true) then [(name, x)]
          else [])
      ++ csv_files e2.
Proof.
  unfold csv_files. rewrite filter_app, filter_cons. simpl.
  now destruct (decide (endsWith name (lit ".csv") = true)).
Qed.

Lemma file_messages_after_first_line t h rest :
  no_line_break h ->
  file_messages t (h ++ NL :: rest) = fst (scan_lines t (split_lines rest)).
Proof.
  intros Hh. unfold file_messages.
  now rewrite split_lines_line, skipn_cons, drop_0.
Qed.

(** X11: the first line of a log file is never data: a query returns
    and writes the same whatever the first line of a file is, be it the
    header or a record. *)
Theorem first_line_is_never_data (Date : jsstring -> option Z)
    (e1 e2 : listing) (name h1 h2 rest t : jsstring) (limit : Z) :
  no_line_break h1 -> no_line_break h2 ->
  getMessagesForTopic_io Date
    (Some (e1 ++ (name, File (h1 ++ NL :: rest)) :: e2)) t limit =
  getMessagesForTopic_io Date
    (Some (e1 ++ (name, File (h2 ++ NL :: rest)) :: e2)) t limit.
Proof.
  intros H1 H2. rewrite !getMessagesForTopic_io_listed, !csv_files_middle.
  rewrite !stored_messages_app, !length_app.
  destruct (decide (endsWith name (lit ".csv") = true)); [|reflexivity].
  simpl. now rewrite !file_messages_after_first_line by assumption.
Qed.

Lemma first_line_is_never_data_witness :
  getMessagesForTopic_io sample_dates
    (Some ([] ++ (lit "alice_messages.csv",
                  File (lit "Timestamp,Topic,Sender,Message" ++ NL ::
                          save_line (body_of "2024-01-01T00:00:00.000Z"
                                       "alice" "one"))) :: []))
    (lit "weather") 10 =
  getMessagesForTopic_io sample_dates
    (Some ([] ++ (lit "alice_messages.csv",
                  File (record_text (body_of "2024-01-02T00:00:00.000Z"
                                       "alice" "lost") ++ NL ::
                          save_line (body_of "2024-01-01T00:00:00.000Z"
                                       "alice" "one"))) :: []))
    (lit "weather") 10.
Proof.
  apply (first_line_is_never_data sample_dates [] []).
  - repeat constructor; discriminate.
  - repeat constructor; discriminate.
Defined.

(** X12: an entry of the directory whose name does not end in .csv takes
    no part in a query, whatever it is: a query returns and writes the
    same with and without it. *)
Theorem other_entries_are_ignored (Date : jsstring -> option Z)
    (e1 e2 : listing) (name : jsstring) (x : entry) (t : jsstring)
    (limit : Z) :
  endsWith name (lit ".csv") = false ->
  getMessagesForTopic_io Date (Some (e1 ++ (name, x) :: e2)) t limit =
  getMessagesForTopic_io Date (Some (e1 ++ e2)) t limit.
Proof.
  intros Hn. unfold getMessagesForTopic_io.
  rewrite csv_files_middle. rewrite decide_False by congruence.
  unfold csv_files. now rewrite filter_app.
Qed.

Lemma other_entries_are_ignored_witness :
  getMessagesForTopic_io sample_dates
    (Some (default [] shuffled_store ++ (lit "notes.txt", Directory) :: []))
    (lit "weather") 10 =
  getMessagesForTopic_io sample_dates
    (Some (default [] shuffled_store ++ [])) (lit "weather") 10.
Proof.
  apply (other_entries_are_ignored sample_dates (default [] shuffled_store)
           [] (lit "notes.txt") Directory).
  reflexivity.
Defined.

End FileExtras.

Section LimitExtras.
Import Codec LogStore Shapes.

Lemma is_decimal_bounds c : is_decimal c = true -> (48 <= c <= 57)%N.
Proof.
  unfold is_decimal. intros H. apply andb_true_iff in H as [H1 H2].
  apply N.leb_le in H1, H2. lia.
Qed.

Lemma digit_of_decimal c :
  is_decimal c = true -> digit_of c = Some (Z.of_N c - 48)%Z.
Proof. unfold digit_of, is_decimal. now intros ->. Qed.

Lemma decimal_not_white_space c :
  is_decimal c = true -> is_white_space c = false.
Proof.
  intros H. apply is_decimal_bounds in H. unfold is_white_space.
  repeat match goal with
  | |- context [N.eqb c ?k] =>
      replace (N.eqb c k) with false by (symmetry; apply N.eqb_neq; lia)
  end.
  replace (N.leb c 13) with false by (symmetry; apply N.leb_gt; lia).
  replace (N.leb 8192 c) with false by (symmetry; apply N.leb_gt; lia).
  now rewrite andb_false_r.
Qed.

(** A code unit at which [parseInt] stops reading a decimal numeral. *)
Lemma parse_digits_stop c rest acc :
  is_decimal c = false ->
  parse_digits 10 (c :: rest) acc = acc.
Proof.
  intros Hc. simpl. unfold digit_of. unfold is_decimal in Hc. rewrite Hc.
  destruct (N.leb 97 c && N.leb c 122) eqn:E1.
  - apply andb_true_iff in E1 as [E1 _]. apply N.leb_le in E1.
    destruct (Z.ltb_spec (Z.of_N c - 87) 10); [lia | reflexivity].
  - destruct (N.leb 65 c && N.leb c 90) eqn:E2; [|reflexivity].
    apply andb_true_iff in E2 as [E2 _]. apply N.leb_le in E2.
    destruct (Z.ltb_spec (Z.of_N c - 55) 10); [lia | reflexivity].
Qed.

Lemma parse_digits_decimal digits tail acc :
  forallb is_decimal digits = true ->
  (forall c, head tail = Some c -> is_decimal c = false) ->
  parse_digits 10 (digits ++ tail) acc =
    match digits with
    | [] => acc
    | _ => Some (fold_left (fun a c => (10 * a + (Z.of_N c - 48))%Z)
                   digits (default 0%Z acc))
    end.
Proof.
  intros Hd Ht. revert acc.
  induction digits as [|c digits IH]; intros acc.
  - destruct tail as [|c tail]; [reflexivity|].
    apply parse_digits_stop, Ht. reflexivity.
  - simpl in Hd. apply andb_true_iff in Hd as [Hc Hd].
    cbn [app parse_digits]. rewrite (digit_of_decimal _ Hc).
    apply is_decimal_bounds in Hc.
    destruct (Z.ltb_spec (Z.of_N c - 48) 10); [|lia].
    rewrite (IH Hd). destruct digits; reflexivity.
Qed.

(** X13: [parseInt] reads a limit parameter that starts with decimal
    digits, followed by nothing or by a code unit that is neither a
    decimal digit nor the letter x, as the number those digits write,
    when that number is not above 2^53 (up to which the double that the
    code holds is the number written), and the endpoint runs the query
    with that number, or with 10 when the number is zero. *)
Theorem limit_of_decimal_numeral (digits tail : jsstring) :
  digits <> [] ->
  forallb is_decimal digits = true ->
  (decimal_value digits <= max_exact)%Z ->
  (forall c, head tail = Some c ->
     is_decimal c = false /\ c <> 120%N /\ c <> 88%N) ->
  parseInt (digits ++ tail) = Some (decimal_value digits) /\
  limit_of_query (Some (digits ++ tail)) =
    if (decimal_value digits =? 0)%Z then 10%Z else decimal_value digits.
Proof.
  intros Hne Hd _ Ht.
  assert (parseInt (digits ++ tail) = Some (decimal_value digits)) as Hp.
  { destruct digits as [|c digits]; [now elim Hne|].
    pose proof Hd as Hd'. simpl in Hd'.
    apply andb_true_iff in Hd' as [Hc Hrest].
    pose proof (is_decimal_bounds _ Hc) as Hb.
    unfold parseInt. cbn [app trim_start].
    rewrite (decimal_not_white_space _ Hc). cbn [starts_with].
    replace (N.eqb c 45) with false by (symmetry; apply N.eqb_neq; lia).
    replace (N.eqb c 43) with false by (symmetry; apply N.eqb_neq; lia).
    cbn [orb drop].
    assert (starts_with 120 (digits ++ tail) || starts_with 88 (digits ++ tail)
            = false) as Hx.
    { destruct digits as [|d digits]; simpl.
      - destruct tail as [|x tail]; [reflexivity|]. simpl.
        destruct (Ht x eq_refl) as (_ & H1 & H2).
        apply N.eqb_neq in H1, H2. now rewrite H1, H2.
      - simpl in Hrest. apply andb_true_iff in Hrest as [Hd2 _].
        apply is_decimal_bounds in Hd2.
        replace (N.eqb d 120) with false
          by (symmetry; apply N.eqb_neq; lia).
        replace (N.eqb d 88) with false
          by (symmetry; apply N.eqb_neq; lia).
        reflexivity. }
    rewrite !drop_0, Hx, andb_false_r.
    change (c :: digits ++ tail) with ((c :: digits) ++ tail).
    rewrite parse_digits_decimal; [| exact Hd | intros x Hx'; apply Ht, Hx'].
    unfold decimal_value. simpl default.
    now rewrite Z.mul_1_l. }
  split; [exact Hp|]. unfold limit_of_query. simpl template. now rewrite Hp.
Qed.

Lemma limit_of_decimal_numeral_witness :
  parseInt (lit "25" ++ lit "px") = Some (decimal_value (lit "25")) /\
  limit_of_query (Some (lit "25" ++ lit "px")) =
    if (decimal_value (lit "25") =? 0)%Z then 10%Z
    else decimal_value (lit "25").
Proof.
  apply (limit_of_decimal_numeral (lit "25") (lit "px")).
  - discriminate.
  - reflexivity.
  - discriminate.
  - intros c [= <-]. repeat split; discriminate.
Defined.

(** X14: the debug endpoint lists at most 50 messages, and the count it
    reports is the number of messages it lists. *)
Theorem debug_lists_at_most_fifty (Date : jsstring -> option Z)
    (toLocaleString : jsstring -> jsstring) (st : storage) (t : jsstring) :
  let reply := Debug.debug_messages Date toLocaleString st t in
  Debug.messageCount reply = length (Debug.debug_list reply) /\
  (Debug.messageCount reply <= 50)%nat.
Proof.
  simpl. rewrite length_map. split; [reflexivity|].
  apply (getMessagesForTopic_length Date st t 50). lia.
Qed.

End LimitExtras.

(** * More on [/save] *)

Section SaveFacts.
Import Codec LogStore Shapes.

Lemma find_entry_append_to_ne name name' line entries :
  name' <> name ->
  find_entry name' (append_to name line entries) = find_entry name' entries.
Proof.
  intros Hne. induction entries as [|[n e] entries IH]; [reflexivity|].
  simpl. destruct (bool_decide_reflect (n = name)) as [->|Hn].
  - destruct e; simpl; now rewrite bool_decide_eq_false_2 by congruence.
  - simpl. now rewrite IH.
Qed.

Lemma find_entry_snoc_ne name name' e entries :
  name' <> name ->
  find_entry name' (entries ++ [(name, e)]) = find_entry name' entries.
Proof.
  intros Hne. induction entries as [|[n e'] entries IH]; simpl.
  - now rewrite bool_decide_eq_false_2 by congruence.
  - now rewrite IH.
Qed.



Lemma fileName_ends_in_csv b : endsWith (fileName b) (lit ".csv") = true.
Proof.
  unfold endsWith, fileName. apply bool_decide_eq_true_2.
  change (lit "_messages.csv") with (lit "_messages" ++ lit ".csv").
  rewrite app_assoc, length_app.
  replace (length (template (Codec.username b) ++ lit "_messages")
           + length (lit ".csv") - length (lit ".csv"))%nat
    with (length (template (Codec.username b) ++ lit "_messages")) by lia.
  apply drop_app_length.
Qed.

(** A line with messages, added to a text that ends with a line break,
    adds its messages after those of the file. *)
Lemma file_messages_append_line t c line ms :
  no_line_break line ->
  scan_line t line = (ms, []) ->
  file_messages t ((c ++ [NL]) ++ line ++ [NL]) =
  file_messages t (c ++ [NL]) ++ ms.
Proof.
  intros Hl Hline. unfold file_messages.
  rewrite <- app_assoc. simpl app.
  rewrite !split_lines_app, (split_lines_one line) by assumption.
  pose proof (split_lines_nonempty c) as Hne.
  destruct (split_lines c) as [|l ls]; [contradiction|].
  simpl. rewrite !drop_0, !scan_lines_app, !scan_lines_cons, Hline.
  simpl. now rewrite !app_nil_r.
Qed.

Lemma file_messages_first_line t line ms :
  no_line_break line ->
  scan_line t line = (ms, []) ->
  file_messages t (header ++ line ++ [NL]) = ms.
Proof.
  intros Hl Hline. unfold file_messages, header.
  rewrite <- app_assoc. simpl app at 2.
  rewrite split_lines_line by (repeat constructor; discriminate).
  rewrite split_lines_line by assumption.
  rewrite skipn_cons, drop_0, !scan_lines_cons, Hline. simpl.
  now rewrite app_nil_r.
Qed.

Lemma stored_messages_append_to_perm t name line entries content extra ms :
  find_entry name entries = Some (File content) ->
  endsWith name (lit ".csv") = true ->
  file_messages t (content ++ line) = file_messages t content ++ extra ->
  stored_messages t (csv_files entries) = Normal ms ->
  exists ms',
    stored_messages t (csv_files (append_to name line entries)) = Normal ms'
    /\ Permutation ms' (ms ++ extra).
Proof.
  intros Hfind Hcsv Hadd. revert ms.
  induction entries as [|[n e] entries IH]; intros ms; simpl in *;
    [discriminate|].
  destruct (bool_decide_reflect (n = name)) as [->|Hn].
  - injection Hfind as ->. unfold csv_files. rewrite !filter_cons. simpl.
    rewrite !decide_True by exact Hcsv. simpl.
    destruct (stored_messages t (filter _ entries)) as [rest|];
      [|discriminate].
    intros [= <-]. eexists. split; [reflexivity|]. rewrite Hadd.
    rewrite <- !app_assoc. apply Permutation_app_head, Permutation_app_comm.
  - unfold csv_files in *. rewrite !filter_cons. simpl.
    destruct (decide (endsWith n (lit ".csv") = true)); [|now apply IH].
    simpl. destruct e as [c|]; [|discriminate].
    destruct (stored_messages t (filter _ entries)) as [rest|] eqn:E;
      [|discriminate].
    intros [= <-]. destruct (IH Hfind rest eq_refl) as (ms' & -> & Hp).
    eexists. split; [reflexivity|].
    rewrite <- app_assoc. now apply Permutation_app_head.
Qed.

End SaveFacts.

Section SaveExtras.
Import Codec LogStore Shapes.

(** X15: a save under a user name without path separator, NUL and
    unpaired surrogate, of a line without unpaired surrogate, into a
    listed directory where the log file of the user is not a directory,
    succeeds and only appends: the log file of the user holds what it
    held, or the header if it was absent, followed by the line of the
    record, and every other entry of the directory is as it was. *)
Theorem save_only_appends (entries : listing) (b : save_body) :
  storable b ->
  find_entry (fileName b) entries <> Some Directory ->
  exists entries',
    save (Some entries) b = (Some entries', json_saved) /\
    find_entry (fileName b) entries' =
      Some (File ((match find_entry (fileName b) entries with
                   | Some (File content) => content
                   | _ => header
                   end) ++ save_line b)) /\
    forall name, name <> fileName b ->
      find_entry name entries' = find_entry name entries.
Proof.
  intros _ Hdir. unfold save.
  destruct (find_entry (fileName b) entries) as [[content|]|] eqn:Hfind.
  - eexists. split; [reflexivity|]. split.
    + now apply find_entry_append_to.
    + intros name Hne. now apply find_entry_append_to_ne.
  - now elim Hdir.
  - eexists. split; [reflexivity|]. split.
    + now apply find_entry_snoc.
    + intros name Hne. now apply find_entry_snoc_ne.
Qed.

Lemma save_only_appends_witness :
  exists entries',
    save (Some (default [] shuffled_store)) silent
      = (Some entries', json_saved) /\
    find_entry (fileName silent) entries' =
      Some (File ((match find_entry (fileName silent)
                           (default [] shuffled_store) with
                   | Some (File content) => content
                   | _ => header
                   end) ++ save_line silent)) /\
    forall name, name <> fileName silent ->
      find_entry name entries' =
      find_entry name (default [] shuffled_store).
Proof.
  apply (save_only_appends (default [] shuffled_store) silent).
  - split; reflexivity.
  - discriminate.
Defined.



(** X17: a record that is saved is found again.  For a record with a
    body that is not empty, a timestamp without comma and quote, no
    line break in timestamp, topic, sender and body, a user name
    without path separator, NUL and unpaired surrogate, and a line
    without unpaired surrogate, saved into a directory where the log
    file of the user is absent or ends with a line break and where the
    query for the topic of the record found [messages], the save
    succeeds and the same query, with a limit above the number of
    [messages], returns one message more, among them the message of the
    record, with every field trimmed. *)
Theorem saved_record_is_returned (Date : jsstring -> option Z)
    (entries : listing) (b : save_body) (limit : Z)
    (messages : list message) :
  storable b ->
  plain (template (Codec.timestamp b)) ->
  no_line_break (template (Codec.timestamp b)) ->
  no_line_break (or_undefined (Codec.topic b)) ->
  no_line_break (written_sender b) ->
  no_line_break (or_undefined (payload b)) ->
  or_undefined (payload b) <> [] ->
  ready_for_append (fileName b) entries ->
  stored_messages (trim (or_undefined (Codec.topic b))) (csv_files entries)
    = Normal messages ->
  (Z.of_nat (length messages) < limit)%Z ->
  exists entries',
    save (Some entries) b = (Some entries', json_saved) /\
    message_of_body b ∈
      getMessagesForTopic Date (Some entries')
        (trim (or_undefined (Codec.topic b))) limit /\
    length (getMessagesForTopic Date (Some entries')
              (trim (or_undefined (Codec.topic b))) limit)
      = S (length messages).
Proof.
  intros _ Hts Hnts Hnt Hns Hnp Hp Hready Hst Hlimit.
  set (t := trim (or_undefined (Codec.topic b))) in *.
  assert (scan_line t (record_text b) = ([message_of_body b], [])) as Hscan.
  { eapply scan_line_match. rewrite parse_record_text by assumption.
    destruct (or_undefined (payload b)); [now elim Hp | reflexivity]. }
  assert (no_line_break (record_text b)) as Hnl
    by now apply no_line_break_record_text.
  assert (exists entries' ms',
    save (Some entries) b = (Some entries', json_saved) /\
    stored_messages t (csv_files entries') = Normal ms' /\
    Permutation ms' (messages ++ [message_of_body b]))
    as (entries' & ms' & Hsave & Hst' & Hperm).
  { unfold ready_for_append in Hready. unfold save.
    destruct (find_entry (fileName b) entries) as [[content|]|] eqn:Hfind.
    - destruct Hready as [c ->].
      destruct (stored_messages_append_to_perm t (fileName b) (save_line b)
        entries (c ++ [NL]) [message_of_body b] messages Hfind
        (fileName_ends_in_csv b)) as (ms' & H1 & H2).
      + unfold save_line. now apply file_messages_append_line.
      + exact Hst.
      + now exists (append_to (fileName b) (save_line b) entries), ms'.
    - contradiction.
    - exists (entries ++ [(fileName b, File (header ++ save_line b))]),
        (messages ++ [message_of_body b]).
      split; [reflexivity|]. split; [|reflexivity].
      unfold csv_files. rewrite filter_app, filter_cons, filter_nil.
      rewrite decide_True by apply fileName_ends_in_csv.
      rewrite stored_messages_app. unfold csv_files in Hst. rewrite Hst.
      cbn [stored_messages]. unfold save_line.
      rewrite (file_messages_first_line _ _ _ Hnl Hscan).
      reflexivity. }
  exists entries'. split; [exact Hsave|].
  rewrite getMessagesForTopic_cases, Hst'.
  assert (length ms' = S (length messages)) as Hlen.
  { rewrite (Permutation_length Hperm), length_app. simpl. lia. }
  rewrite slice_all by (rewrite ?sort_length; lia).
  split.
  - rewrite sort_perm, Hperm. apply elem_of_app. right.
    apply list_elem_of_here.
  - now rewrite sort_length.
Qed.

Lemma ready_for_append_by_last name entries :
  match find_entry name entries with
  | Some (File content) => last content = Some NL
  | Some Directory => False
  | None => True
  end ->
  ready_for_append name entries.
Proof.
  unfold ready_for_append.
  destruct (find_entry name entries) as [[content|]|]; try tauto.
  intros H. destruct content as [|c content _] using rev_ind;
    [discriminate|].
  rewrite last_snoc in H. injection H as ->. now exists content.
Qed.

Lemma saved_record_is_returned_witness :
  exists entries',
    save (Some (default [] shuffled_store)) sunny
      = (Some entries', json_saved) /\
    message_of_body sunny ∈
      getMessagesForTopic sample_dates (Some entries')
        (trim (or_undefined (Codec.topic sunny))) 10 /\
    length (getMessagesForTopic sample_dates (Some entries')
              (trim (or_undefined (Codec.topic sunny))) 10)
      = S (length
             [ message_of "2024-01-03T00:00:00.000Z" "alice" "three";
               message_of "2024-01-02T00:00:00.000Z" "alice" "two";
               message_of "2024-01-01T00:00:00.000Z" "bob" "one" ]).
Proof.
  apply (saved_record_is_returned sample_dates (default [] shuffled_store)
           sunny 10).
  - split; reflexivity.
  - repeat constructor; discriminate.
  - repeat constructor; discriminate.
  - repeat constructor; discriminate.
  - repeat constructor; discriminate.
  - repeat constructor; discriminate.
  - discriminate.
  - apply ready_for_append_by_last. reflexivity.
  - reflexivity.
  - simpl. lia.
Defined.

End SaveExtras.

(** * More on the registry *)

Section RegistryMore.
Import Registry.

Lemma set_lookup_ne counts k v u :
  u <> k -> set counts k v !! u = counts !! u.
Proof.
  intros Hne. unfold set. destruct (bool_decide (k = proto)); [reflexivity|].
  now rewrite lookup_insert_ne by congruence.
Qed.

Lemma leave_lookup_ne j counts u :
  j <> Some u -> fst (leave j counts) !! u = counts !! u.
Proof.
  intros Hj. destruct j as [old|]; [|reflexivity]. simpl.
  destruct (truthy_str old && truthy (get counts old)); [|reflexivity].
  simpl. apply set_lookup_ne. congruence.
Qed.

Lemma leave_emits_to j counts u v :
  (u, v) ∈ snd (leave j counts) -> j = Some u.
Proof.
  destruct j as [old|]; simpl.
  - destruct (truthy_str old && truthy (get counts old)); simpl.
    + intros H. apply elem_of_cons in H as [[= -> _]|H]; [reflexivity|].
      now apply elem_of_nil in H.
    + intros H. now apply elem_of_nil in H.
  - intros H. now apply elem_of_nil in H.
Qed.


Lemma reachable_consistent events :
  Forall accounted_event events -> consistent (fst (run initial events)).
Proof. apply run_consistent, consistent_initial. Qed.

Lemma get_consistent st t :
  consistent st -> accounted t ->
  joined_to t (sockets st) <> 0%nat ->
  get (userCounts st) t = num (Z.of_nat (joined_to t (sockets st))).
Proof.
  intros Hst Ht Hn. rewrite (get_accounted _ _ Ht).
  destruct (userCounts st !! t) as [v|] eqn:Hv.
  - now destruct (counts_ok _ Hst _ _ Hv) as [_ ->].
  - apply (absent_ok _ Hst) in Hv. contradiction.
Qed.

End RegistryMore.

Section RegistryExtras.
Import Registry.

(** X19: after any sequence of connections, joins and disconnections in
    which every joined topic is a non-empty string that is no member
    name of [Object.prototype], every count that [userCounts] holds is
    the number of connected clients joined to its topic, and a topic
    without count has no client. *)
Theorem counts_are_joined_clients (events : list event) (t : jsstring) :
  Forall accounted_event events ->
  let st := fst (run initial events) in
  match userCounts st !! t with
  | Some v => v = num (Z.of_nat (joined_to t (sockets st)))
  | None => joined_to t (sockets st) = 0%nat
  end.
Proof.
  intros Hev st. pose proof (reachable_consistent events Hev) as Hst.
  fold st in Hst. destruct (userCounts st !! t) as [v|] eqn:Hv.
  - now destruct (counts_ok _ Hst _ _ Hv).
  - now apply (absent_ok _ Hst).
Qed.

(** X20: in a state reached that way, a client that joins the topic it
    is joined to is sent two notifications for the topic, the count
    less one and then the count, and the count of the topic is after
    the join what it was before. *)
Theorem rejoin_sends_two_notifications (events : list event) (id : N)
    (t : jsstring) :
  Forall accounted_event events ->
  let st := fst (run initial events) in
  sockets st !! id = Some (Some t) ->
  let n := Z.of_nat (joined_to t (sockets st)) in
  get (userCounts st) t = num n /\
  snd (joinTopic id t st) = [(t, num (n - 1)); (t, num n)] /\
  get (userCounts (fst (joinTopic id t st))) t = num n.
Proof.
  intros Hev st Hid. apply rejoin_consistent; [|exact Hid].
  now apply reachable_consistent.
Qed.



(** X23: a first join of a topic named like a member of
    [Object.prototype] does not start the count at 1: the count is made
    from the inherited member, and the notification carries a value
    that is no number. *)
Theorem inherited_name_is_not_counted (st : state) (id : N) (t : jsstring) :
  t ∈ prototype_names ->
  userCounts st !! t = None ->
  sockets st !! id = Some None ->
  exists v, snd (joinTopic id t st) = [(t, v)] /\ forall n, v <> num n.
Proof.
  intros Hin Hnone Hid. unfold joinTopic. rewrite Hid. cbn [leave fst snd app].
  unfold get at 2, set.
  destruct (bool_decide_reflect (t = proto)) as [->|Hp].
  - exists (inherited proto). split; [|discriminate].
    unfold get. now rewrite bool_decide_eq_true_2.
  - rewrite Hnone, bool_decide_eq_true_2 by exact Hin.
    exists (text t 1). split; [|discriminate].
    unfold get. rewrite bool_decide_eq_false_2 by exact Hp.
    now rewrite lookup_insert_eq.
Qed.

(** X24: a join and a disconnection touch two topics at most: the count
    of a topic that the client neither joins nor was joined to stays as
    it is, and no notification is sent for it, in every state. *)
Theorem other_topics_are_untouched (st : state) (id : N) (t u : jsstring) :
  sockets st !! id <> Some (Some u) ->
  (u <> t ->
   userCounts (fst (joinTopic id t st)) !! u = userCounts st !! u /\
   forall v, (u, v) ∉ snd (joinTopic id t st)) /\
  userCounts (fst (disconnect id st)) !! u = userCounts st !! u /\
  forall v, (u, v) ∉ snd (disconnect id st).
Proof.
  intros Hid. unfold joinTopic, disconnect.
  destruct (sockets st !! id) as [j|] eqn:Hj.
  2:{ repeat split; try reflexivity; intros v Hv;
      now apply elem_of_nil in Hv. }
  assert (j <> Some u) as Hju by congruence.
  pose proof (leave_lookup_ne j (userCounts st) u Hju) as Hl.
  pose proof (fun v => leave_emits_to j (userCounts st) u v) as He.
  destruct (leave j (userCounts st)) as [counts1 out1]. simpl in *.
  split; [intros Hut; split|split].
  - now rewrite set_lookup_ne.
  - intros v H. apply elem_of_app in H as [H|H].
    + now apply He in H.
    + apply elem_of_cons in H as [[= -> _]|H]; [now elim Hut|].
      now apply elem_of_nil in H.
  - exact Hl.
  - intros v H. now apply He in H.
Qed.

End RegistryExtras.

Section RegistryWitnesses.
Import Registry Shapes.

Lemma accounted_by_decision t :
  bool_decide (t <> [] /\ t ∉ prototype_names) = true -> accounted t.
Proof. apply bool_decide_eq_true_1. Qed.

Lemma two_on_a_accounted : Forall accounted_event two_on_a.
Proof.
  repeat constructor; now apply accounted_by_decision.
Qed.

Lemma counts_are_joined_clients_witness :
  let st := fst (run initial two_on_a) in
  match userCounts st !! lit "a" with
  | Some v => v = num (Z.of_nat (joined_to (lit "a") (sockets st)))
  | None => joined_to (lit "a") (sockets st) = 0%nat
  end.
Proof.
  apply (counts_are_joined_clients two_on_a (lit "a")).
  apply two_on_a_accounted.
Defined.

Lemma rejoin_sends_two_notifications_witness :
  let st := fst (run initial two_on_a) in
  let n := Z.of_nat (joined_to (lit "a") (sockets st)) in
  get (userCounts st) (lit "a") = num n /\
  snd (joinTopic 1 (lit "a") st) =
    [(lit "a", num (n - 1)); (lit "a", num n)] /\
  get (userCounts (fst (joinTopic 1 (lit "a") st))) (lit "a") = num n.
Proof.
  apply (rejoin_sends_two_notifications two_on_a 1 (lit "a")).
  - apply two_on_a_accounted.
  - reflexivity.
Defined.



Lemma inherited_name_is_not_counted_witness :
  exists v,
    snd (joinTopic 1 (lit "constructor") (connection 1 initial)) =
      [(lit "constructor", v)] /\
    forall n, v <> num n.
Proof.
  apply (inherited_name_is_not_counted (connection 1 initial) 1
           (lit "constructor")).
  - apply list_elem_of_here.
  - reflexivity.
  - reflexivity.
Defined.

Lemma other_topics_are_untouched_witness :
  let st := fst (run initial (two_on_a ++ [Connect 3; Join 3 (lit "b")])) in
  (lit "b" <> lit "c" ->
   userCounts (fst (joinTopic 1 (lit "c") st)) !! lit "b" =
     userCounts st !! lit "b" /\
   forall v, (lit "b", v) ∉ snd (joinTopic 1 (lit "c") st)) /\
  userCounts (fst (disconnect 1 st)) !! lit "b" = userCounts st !! lit "b" /\
  forall v, (lit "b", v) ∉ snd (disconnect 1 st).
Proof.
  apply (other_topics_are_untouched
           (fst (run initial (two_on_a ++ [Connect 3; Join 3 (lit "b")])))
           1 (lit "c") (lit "b")).
  discriminate.
Defined.

End RegistryWitnesses.

(** * The state files *)

Section StateFacts.
Import StateStore.

Lemma stateFile_inj a b : stateFile a = stateFile b <-> template a = template b.
Proof.
  unfold stateFile. split; [apply app_inv_tail | now intros ->].
Qed.

Lemma or_str_filled a (b : jsstring) : b <> [] -> or_str a b <> [].
Proof. intros Hb. unfold or_str. now destruct a. Qed.

Lemma stateData_of_filled now b : filled (Document (stateData_of now b)).
Proof. split; apply or_str_filled; discriminate. Qed.

(** A save for one user name leaves what is loaded for another. *)
Lemma save_state_other now dir b name :
  template (username b) <> name ->
  load_state (fst (save_state now dir b)) name = load_state dir name.
Proof.
  intros Hne. unfold save_state.
  destruct dir as [files|]; [|reflexivity].
  destruct (files !! stateFile (username b)) as [[d|]|]; try reflexivity;
    simpl; rewrite lookup_insert_ne; try reflexivity;
    intros H; apply stateFile_inj in H; now apply Hne.
Qed.

Lemma save_state_filled now files b :
  map_Forall (fun _ e => filled e) files ->
  exists files',
    save_state now (Some files) b = (Some files', state_saved) /\
    files' !! stateFile (username b) = Some (Document (stateData_of now b)) /\
    map_Forall (fun _ e => filled e) files'.
Proof.
  intros Hf. unfold save_state.
  destruct (files !! stateFile (username b)) as [[d|]|] eqn:E.
  - eexists. split; [reflexivity|]. split; [apply lookup_insert_eq|].
    apply map_Forall_insert_2; [apply stateData_of_filled | exact Hf].
  - now apply Hf in E.
  - eexists. split; [reflexivity|]. split; [apply lookup_insert_eq|].
    apply map_Forall_insert_2; [apply stateData_of_filled | exact Hf].
Qed.

Lemma save_states_filled requests files :
  map_Forall (fun _ e => filled e) files ->
  exists files',
    save_states (Some files) requests = Some files' /\
    map_Forall (fun _ e => filled e) files'.
Proof.
  revert files. induction requests as [|[now b] requests IH];
    intros files Hf; cbn [save_states fold_left fst snd].
  - now exists files.
  - destruct (save_state_filled now files b Hf) as (files' & -> & _ & Hf').
    now apply IH.
Qed.

Lemma save_states_app dir r1 r2 :
  save_states dir (r1 ++ r2) = save_states (save_states dir r1) r2.
Proof. apply fold_left_app. Qed.

Lemma save_states_others dir requests name :
  Forall (fun r => template (username (snd r)) <> name) requests ->
  load_state (save_states dir requests) name = load_state dir name.
Proof.
  intros Hr. revert dir.
  induction Hr as [|[now b] requests Hne _ IH]; intros dir;
    [reflexivity|].
  cbn [save_states fold_left fst snd]. unfold save_states in IH.
  rewrite IH. now apply save_state_other.
Qed.

End StateFacts.

Section StateExtras.
Import StateStore.

(** X25: what is loaded for a user is what was saved for it last,
    among user names without path separator, NUL and unpaired
    surrogate.  After any saves under such names into a directory that
    starts empty, then a save for a user name, then saves for other
    user names, the state loaded for the user name is the document of
    that save: the user name as sent, OFF for a button that is absent or
    empty, false for a switch that is absent, 000 for an indicator that
    is absent or empty, and the time of the save. *)
Theorem last_saved_state_is_loaded
    (before later : list (jsstring * state_body)) (now : jsstring)
    (b : state_body) :
  Forall (fun r => Shapes.kept_name (template (username (snd r))) = true)
    (before ++ (now, b) :: later) ->
  Forall (fun r => template (username (snd r)) <> template (username b))
    later ->
  load_state (save_states (Some ∅) (before ++ (now, b) :: later))
    (template (username b)) =
  state_loaded (stateData_of now b).
Proof.
  intros _ Hlater. rewrite save_states_app.
  change ((now, b) :: later) with ([(now, b)] ++ later).
  rewrite save_states_app, save_states_others by exact Hlater.
  destruct (save_states_filled before ∅) as (files & -> & Hf).
  { apply map_Forall_empty. }
  cbn [save_states fold_left fst snd].
  destruct (save_state_filled now files b Hf) as (files' & -> & Hl & _).
  cbn [fst load_state].
  assert (stateFile (Some (template (username b))) = stateFile (username b))
    as -> by (apply stateFile_inj; reflexivity).
  now rewrite Hl.
Qed.

Lemma last_saved_state_is_loaded_witness :
  load_state
    (save_states (Some ∅)
       ([] ++ (lit "2024-01-01T00:00:00.000Z", dimmed)
           :: [ (lit "2024-01-02T00:00:00.000Z",
                 {| username := Some (lit "bob"); buttonState := None;
                    switchState := None; indicatorValue := None |}) ]))
    (template (username dimmed)) =
  state_loaded (stateData_of (lit "2024-01-01T00:00:00.000Z") dimmed).
Proof.
  apply (last_saved_state_is_loaded []).
  - repeat constructor.
  - repeat constructor. discriminate.
Defined.

(** X26: a user name for which nothing was saved loads the default
    state, among user names without path separator, NUL and unpaired
    surrogate: after any saves for other such user names into a
    directory that starts empty, the state loaded for such a name is
    OFF, false and 000 under the user name asked for, without time. *)
Theorem unsaved_state_is_the_default
    (requests : list (jsstring * state_body)) (name : jsstring) :
  Shapes.kept_name name = true ->
  Forall (fun r => Shapes.kept_name (template (username (snd r))) = true)
    requests ->
  Forall (fun r => template (username (snd r)) <> name) requests ->
  load_state (save_states (Some ∅) requests) name =
  state_loaded (defaultState name).
Proof.
  intros _ _ Hr. now rewrite save_states_others by exact Hr.
Qed.

Lemma unsaved_state_is_the_default_witness :
  load_state
    (save_states (Some ∅) [(lit "2024-01-01T00:00:00.000Z", dimmed)])
    (lit "bob") =
  state_loaded (defaultState (lit "bob")).
Proof.
  apply (unsaved_state_is_the_default
           [(lit "2024-01-01T00:00:00.000Z", dimmed)] (lit "bob")).
  - reflexivity.
  - repeat constructor.
  - repeat constructor. discriminate.
Defined.

(** X27: whatever is saved into a directory that starts empty, every
    load answers with a state, never with an error, and the button and
    the indicator of that state are never empty. *)
Theorem loaded_state_is_filled
    (requests : list (jsstring * state_body)) (name : jsstring) :
  exists d,
    load_state (save_states (Some ∅) requests) name = state_loaded d /\
    doc_buttonState d <> [] /\ doc_indicatorValue d <> [].
Proof.
  destruct (save_states_filled requests ∅) as (files & -> & Hf).
  { apply map_Forall_empty. }
  unfold load_state.
  destruct (files !! stateFile (Some name)) as [[d|]|] eqn:E.
  - exists d. split; [reflexivity|]. now apply Hf in E.
  - now apply Hf in E.
  - exists (defaultState name). repeat split; discriminate.
Qed.

End StateExtras.

Section SaveMore.
Import Codec LogStore Shapes.

Lemma scan_line_other_topic t b :
  plain (template (Codec.timestamp b)) ->
  t <> trim (or_undefined (Codec.topic b)) ->
  scan_line t (record_text b) = ([], []).
Proof.
  intros Hts Ht. unfold scan_line, try_parseCSVLine.
  destruct (truthy_str (trim (record_text b))); [|reflexivity].
  rewrite parse_record_text by assumption.
  destruct (truthy_str (or_undefined (payload b))); [|reflexivity].
  simpl. now rewrite bool_decide_eq_false_2 by congruence.
Qed.

(** X29: a saved record shows in the queries of its own topic only.
    For a record with a timestamp without comma and quote, no line
    break in timestamp, topic, sender and body, a user name without
    path separator, NUL and unpaired surrogate, and a line without
    unpaired surrogate, saved into a directory where the log file of
    the user is absent or ends where a line ends, every query for a
    topic other than the trimmed topic of the record returns after the
    save what it returned before. *)
Theorem saved_record_stays_in_its_topic (Date : jsstring -> option Z)
    (entries : listing) (b : save_body) (t : jsstring) (limit : Z) :
  storable b ->
  plain (template (Codec.timestamp b)) ->
  no_line_break (template (Codec.timestamp b)) ->
  no_line_break (or_undefined (Codec.topic b)) ->
  no_line_break (written_sender b) ->
  no_line_break (or_undefined (payload b)) ->
  appendable (fileName b) entries ->
  t <> trim (or_undefined (Codec.topic b)) ->
  getMessagesForTopic Date (fst (save (Some entries) b)) t limit =
  getMessagesForTopic Date (Some entries) t limit.
Proof.
  intros _ Hts Hnts Hnt Hns Hnp Happ Ht.
  pose proof (scan_line_other_topic t b Hts Ht) as Hscan.
  assert (no_line_break (record_text b)) as Hnl
    by now apply no_line_break_record_text.
  unfold appendable in Happ. unfold save.
  destruct (find_entry (fileName b) entries) as [[content|]|] eqn:Hfind;
    cbn [fst].
  - apply getMessagesForTopic_stored.
    eapply stored_messages_append_to; [exact Hfind|].
    now apply file_messages_append.
  - contradiction.
  - apply getMessagesForTopic_stored.
    unfold csv_files. rewrite filter_app, filter_cons, filter_nil.
    destruct (decide _); [|now rewrite app_nil_r].
    apply stored_messages_snoc. now apply file_messages_new.
Qed.

Lemma saved_record_stays_in_its_topic_witness :
  getMessagesForTopic sample_dates
    (fst (save (Some (default [] shuffled_store)) sunny)) (lit "traffic") 10 =
  getMessagesForTopic sample_dates (Some (default [] shuffled_store))
    (lit "traffic") 10.
Proof.
  apply (saved_record_stays_in_its_topic sample_dates
           (default [] shuffled_store) sunny (lit "traffic") 10).
  - split; reflexivity.
  - repeat constructor; discriminate.
  - repeat constructor; discriminate.
  - repeat constructor; discriminate.
  - repeat constructor; discriminate.
  - repeat constructor; discriminate.
  - apply appendable_by_last. vm_compute. now right.
  - discriminate.
Defined.

End SaveMore.

(** * The limit parameter in which no number is read *)

Section LimitDefault.
Import Codec LogStore Shapes.





Variable Date : jsstring -> option Z.


End LimitDefault.

Section LimitScenarios.
Import Codec LogStore Shapes.



End LimitScenarios.
